(** * conflux: finite-field elements and the MongoDB-backed prefix tree

    A shallow embedding of the type [Zp] of package conflux with its
    arithmetic, and of [recon/mgo/ptree.go], the prefix tree kept in a
    MongoDB collection, with the properties of the tree's specification
    stated over it.

    Conventions.
    - A Go [int], [int64] or [*big.Int] value is a [Z]. The wrap-around of
      a machine [int] is written out ([wrap_int]) where a value can reach
      it: [numElements++], [1 << uint(bitQuantum)] and the derived
      settings. Depths and bit positions stay below the bit capacity of a
      key wherever the code goes on, and are left as they are.
    - A Go [[]byte] is a [list byte].
    - A Go function that can panic returns an [outcome]; a function that
      returns [(v, err)] returns a sum [error + _], or a pair with an
      [option error].
    - Code that reads the MongoDB collection runs in the monad [M], whose
      state is the collection.
    - What the two files call and do not define is modelled from the
      specification, each such definition saying so. *)

From Stdlib Require Import ZArith Lia String.
From Stdlib.Strings Require Import Byte.
From stdpp Require Import base option list gmap.

Local Open Scope Z_scope.

(** ** Panics, errors and the state monad *)

(** What a Go call can do: return, or panic with a message. *)
Inductive outcome (A : Type) : Type :=
| Ok (a : A)
| Panic (msg : string).
Arguments Ok {A} a.
Arguments Panic {A} msg.

#[global] Instance outcome_ret : MRet outcome := fun _ a => Ok a.
#[global] Instance outcome_bind : MBind outcome := fun _ _ k m =>
  match m with
  | Ok a => k a
  | Panic msg => Panic msg
  end.

(** A computation over a mutable state [S] that can panic. The state at
    the moment of a panic is kept: a panic does not roll anything back.
    [None] is the model's own case, for a recursion that used up the fuel
    it was given. *)
Definition M (S A : Type) : Type := S -> option (outcome A * S).

#[global] Instance M_ret {S} : MRet (M S) := fun _ a s => Some (Ok a, s).
#[global] Instance M_bind {S} : MBind (M S) := fun _ _ k m s =>
  match m s with
  | Some (Ok a, s') => k a s'
  | Some (Panic msg, s') => Some (Panic msg, s')
  | None => None
  end.

Definition panic {S A} (msg : string) : M S A := fun s => Some (Panic msg, s).
Definition get_state {S} : M S S := fun s => Some (Ok s, s).
Definition put_state {S} (s : S) : M S unit := fun _ => Some (Ok tt, s).
Definition lift {S A} (o : outcome A) : M S A := fun s => Some (o, s).
Definition out_of_fuel {S A} : M S A := fun _ => None.

(** ** math/big *)

(** [big.Int.Mod]: Euclidean modulus, a run-time panic for a zero
    divisor. *)
Definition big_Mod (x y : Z) : outcome Z :=
  if y =? 0 then Panic "division by zero" else Ok (x mod Z.abs y).

(** [big.Int.Cmp]: -1, 0 or +1. *)
Definition big_Cmp (x y : Z) : Z :=
  match x ?= y with
  | Lt => -1
  | Eq => 0
  | Gt => 1
  end.

(** ** Zp, on values *)

(** [type Zp struct { *big.Int; P *big.Int }], read as the pair of the two
    integers the struct points to. *)
Record Zp : Type := mkZp { Int : Z; P : Z }.

#[global] Instance Zp_eq_dec : EqDecision Zp.
Proof. solve_decision. Defined.

(** [func (zp *Zp) Norm()]: [zp.Mod(zp.Int, zp.P)]. *)
Definition Norm (zp : Zp) : outcome Zp :=
  r ← big_Mod (Int zp) (P zp); mret (mkZp r (P zp)).

(** [func NewZp(p int64, n int64) *Zp]. *)
Definition NewZp (p n : Z) : outcome Zp := Norm (mkZp n p).

(** [func (zp *Zp) assertP(values... *Zp)]. *)
Fixpoint assertP (zp : Zp) (values : list Zp) : outcome unit :=
  match values with
  | [] => Ok tt
  | v :: rest =>
      if negb (big_Cmp (P zp) (P v) =? 0)
      then Panic "finite field mismatch"
      else assertP zp rest
  end.

(** [func (zp *Zp) Cmp(x *Zp) int]. *)
Definition Cmp (zp x : Zp) : outcome Z :=
  _ ← assertP zp [x]; mret (big_Cmp (Int zp) (Int x)).

(** [func (zp *Zp) Add(x, y *Zp) *Zp]: the receiver after the call. *)
Definition Add (zp x y : Zp) : outcome Zp :=
  _ ← assertP zp [x; y];
  Norm (mkZp (Int x + Int y) (P zp)).

(** [func (zp *Zp) Mul(x, y *Zp) *Zp]: the receiver after the call. *)
Definition Mul (zp x y : Zp) : outcome Zp :=
  _ ← assertP zp [x; y];
  Norm (mkZp (Int x * Int y) (P zp)).

(** ** Zp, on the heap

    The same functions with the pointers of the source: a [*Zp] is an
    address of a struct holding two [*big.Int], and [Add] and [Mul] write
    through the receiver's [Int] pointer. *)
Module ZpHeap.

Definition loc := positive.

(** The struct [Zp]: the embedded [*big.Int] and the field [P]. *)
Record ZpStruct : Type := mkStruct { Int_ptr : loc; P_ptr : loc }.

Record heap : Type := mkHeap {
  ints : gmap loc Z;          (* the big.Int objects *)
  zps : gmap loc ZpStruct     (* the Zp structs *)
}.

(** Dereferences; a nil or dangling pointer is a run-time panic. *)
Definition deref (p : loc) : M heap ZpStruct := fun h =>
  match zps h !! p with
  | Some s => Some (Ok s, h)
  | None => Some (Panic "nil pointer dereference", h)
  end.

Definition load (l : loc) : M heap Z := fun h =>
  match ints h !! l with
  | Some v => Some (Ok v, h)
  | None => Some (Panic "nil pointer dereference", h)
  end.

Definition store (l : loc) (v : Z) : M heap unit := fun h =>
  match ints h !! l with
  | Some _ => Some (Ok tt, mkHeap (<[l := v]> (ints h)) (zps h))
  | None => Some (Panic "nil pointer dereference", h)
  end.

(** [zp.Mod(zp.Int, zp.P)] *)
Definition Norm (zp : loc) : M heap unit :=
  s ← deref zp;
  a ← load (Int_ptr s);
  p ← load (P_ptr s);
  r ← lift (big_Mod a p);
  store (Int_ptr s) r.

Fixpoint assertP (zp : loc) (values : list loc) : M heap unit :=
  match values with
  | [] => mret tt
  | v :: rest =>
      s ← deref zp;
      sv ← deref v;
      p ← load (P_ptr s);
      pv ← load (P_ptr sv);
      if negb (big_Cmp p pv =? 0)
      then panic "finite field mismatch"
      else assertP zp rest
  end.

(** [zp.Int.Add(x.Int, y.Int); zp.Norm(); return zp] *)
Definition Add (zp x y : loc) : M heap loc :=
  _ ← assertP zp [x; y];
  s ← deref zp;
  sx ← deref x;
  sy ← deref y;
  a ← load (Int_ptr sx);
  b ← load (Int_ptr sy);
  _ ← store (Int_ptr s) (a + b);
  _ ← Norm zp;
  mret zp.

(** [zp.Int.Mul(x.Int, y.Int); zp.Norm(); return zp] *)
Definition Mul (zp x y : loc) : M heap loc :=
  _ ← assertP zp [x; y];
  s ← deref zp;
  sx ← deref x;
  sy ← deref y;
  a ← load (Int_ptr sx);
  b ← load (Int_ptr sy);
  _ ← store (Int_ptr s) (a * b);
  _ ← Norm zp;
  mret zp.

(** The field element a [*Zp] stands for in a heap. *)
Definition value (h : heap) (p : loc) : option Zp :=
  s ← zps h !! p;
  a ← ints h !! Int_ptr s;
  m ← ints h !! P_ptr s;
  Some (mkZp a m).

End ZpHeap.

(** ** Loops *)

(** [for i := start; ...; i++] run [count] times, in any monad. *)
Fixpoint for_range {m : Type -> Type} `{MRet m, MBind m} {A : Type}
    (count : nat) (i : Z) (body : Z -> A -> m A) (acc : A) : m A :=
  match count with
  | O => mret acc
  | S c => acc' ← body i acc; for_range c (i + 1) body acc'
  end.

(** [for i := 0; i < n; i++]: no iteration when [n <= 0]. *)
Definition for_lt {m : Type -> Type} `{MRet m, MBind m} {A : Type}
    (n : Z) (body : Z -> A -> m A) (acc : A) : m A :=
  for_range (Z.to_nat n) 0 body acc.

(** [for _, x := range l]. *)
Fixpoint for_each {m : Type -> Type} `{MRet m, MBind m} {A B : Type}
    (l : list B) (body : B -> A -> m A) (acc : A) : m A :=
  match l with
  | [] => mret acc
  | x :: rest => acc' ← body x acc; for_each rest body acc'
  end.

(** ** Machine integers *)

(** A 64-bit [int]: the value of an arithmetic result after wrap-around. *)
Definition wrap_int (z : Z) : Z := (z + 2 ^ 63) mod 2 ^ 64 - 2 ^ 63.

Definition max_int : Z := 2 ^ 63 - 1.

(** [uint(x)] for an [int] x. *)
Definition to_uint (x : Z) : Z := x mod 2 ^ 64.

(** [1 << s] at type [int], for an unsigned shift count. *)
Definition shl_one (s : Z) : Z :=
  if s <? 64 then wrap_int (2 ^ s) else 0.

(** [(i >> uint(j)) & 0x1 == 1] *)
Definition index_bit (i j : Z) : bool :=
  Z.land (Z.shiftr i (to_uint j)) 1 =? 1.

(** [byte(x)] keeps the low eight bits. *)
Definition byte_of_Z (z : Z) : byte :=
  match Byte.of_N (Z.to_N (z mod 256)) with
  | Some b => b
  | None => x00
  end.

Definition byte_to_Z (b : byte) : Z := Z.of_N (Byte.to_N b).

#[global] Instance byte_eq_dec : EqDecision byte := Byte.byte_eq_dec.

(** ** More of math/big *)

Fixpoint be_bytes (fuel : nat) (x : Z) (acc : list byte) : list byte :=
  match fuel with
  | O => acc
  | S f => if x =? 0 then acc else be_bytes f (x / 256) (byte_of_Z x :: acc)
  end.

(** [big.Int.Bytes]: the absolute value, big-endian, without leading
    zeros (no byte at all for zero). *)
Definition big_Bytes (x : Z) : list byte :=
  be_bytes (S (Z.to_nat (Z.log2 (Z.abs x)))) (Z.abs x) [].

(** [big.Int.SetBytes]: the big-endian unsigned integer of a buffer. *)
Definition big_SetBytes (l : list byte) : Z :=
  fold_left (fun acc b => acc * 256 + byte_to_Z b) l 0.

(** [big.Int.BitLen] *)
Definition big_BitLen (x : Z) : Z :=
  if x =? 0 then 0 else Z.log2 (Z.abs x) + 1.

(** ** Bitstring

    Modelled from the spec: the type [Bitstring] with [NewBitstring],
    [BitLen], [Bytes], [SetBytes], [Get], [Set] and [Unset] is code of the
    repository outside the two files embedded here. The specification
    (section 3, BitKey) has "an ordered bit sequence of bounded capacity"
    that "supports bit get/set/unset and byte (de)serialization". The model
    is a buffer of [ceil(bits/8)] bytes with its bit count, and a count
    for which that length is negative is the run-time panic of [make];
    bit 0 is the high bit of byte 0; an access outside the buffer is Go's
    index-out-of-range panic; [SetBytes] copies as many bytes as the
    buffer holds, pads with zeros and clears what lies past the bit count. *)
Record Bitstring : Type := mkBitstring { buf : list byte; bits : Z }.

#[global] Instance Bitstring_eq_dec : EqDecision Bitstring.
Proof. solve_decision. Defined.

Definition NewBitstring (n : Z) : outcome Bitstring :=
  if (n + 7) / 8 <? 0 then Panic "makeslice: len out of range"
  else Ok (mkBitstring (replicate (Z.to_nat ((n + 7) / 8)) x00) n).

Definition BitLen (bs : Bitstring) : Z := bits bs.

Definition Bytes (bs : Bitstring) : list byte := buf bs.

(** [b.buf[bit/8] = f(b.buf[bit/8])] *)
Definition update_bit (bs : Bitstring) (bit : Z) (f : byte -> byte) : outcome Bitstring :=
  if bit <? 0 then Panic "index out of range"
  else
    match buf bs !! Z.to_nat (bit / 8) with
    | Some b => Ok (mkBitstring (<[Z.to_nat (bit / 8) := f b]> (buf bs)) (bits bs))
    | None => Panic "index out of range"
    end.

Definition bit_mask (bit : Z) : Z := Z.shiftl 1 (7 - bit mod 8).

(** [b | mask], [b &^ mask] and [b & mask != 0] for the mask of a bit. *)
Definition byte_set (bit : Z) (b : byte) : byte :=
  byte_of_Z (Z.lor (byte_to_Z b) (bit_mask bit)).

Definition byte_unset (bit : Z) (b : byte) : byte :=
  byte_of_Z (Z.ldiff (byte_to_Z b) (bit_mask bit)).

Definition byte_get (bit : Z) (b : byte) : Z :=
  if Z.land (byte_to_Z b) (bit_mask bit) =? 0 then 0 else 1.

Definition Set_ (bs : Bitstring) (bit : Z) : outcome Bitstring :=
  update_bit bs bit (byte_set bit).

Definition Unset (bs : Bitstring) (bit : Z) : outcome Bitstring :=
  update_bit bs bit (byte_unset bit).

Definition Get (bs : Bitstring) (bit : Z) : outcome Z :=
  if bit <? 0 then Panic "index out of range"
  else
    match buf bs !! Z.to_nat (bit / 8) with
    | Some b => Ok (byte_get bit b)
    | None => Panic "index out of range"
    end.

(** The first [n] bytes of [src], padded with zeros. *)
Definition copy_padded (n : nat) (src : list byte) : list byte :=
  take n (src ++ replicate n x00).

(** The high [a] bits of a byte, the others cleared. *)
Definition keep_top (a : Z) (x : byte) : byte :=
  byte_of_Z (Z.land (byte_to_Z x) (256 - 2 ^ (8 - a))).

(** Clears the bits of position [n] and above in the byte they start in. *)
Definition clear_tail (b : list byte) (n : Z) : list byte :=
  if n mod 8 =? 0 then b
  else
    match b !! Z.to_nat (n / 8) with
    | Some x => <[Z.to_nat (n / 8) := keep_top (n mod 8) x]> b
    | None => b
    end.

Definition SetBytes (bs : Bitstring) (src : list byte) : Bitstring :=
  mkBitstring (clear_tail (copy_padded (length (buf bs)) src) (bits bs)) (bits bs).

(** Modelled from the spec: [ReverseBytes] is defined outside the two
    files; the key is built "by reversing the byte order of an element's canonical
    big-endian encoding" (section 3). *)
Definition ReverseBytes (l : list byte) : list byte := rev l.

(** ** Serialization (recon package)

    Go errors, as values: what the readers and the store return next to
    their result. *)
Inductive error : Type :=
| ErrEOF          (* the buffer ended before the value did *)
| ErrNotFound.    (* no document matches the query *)

#[global] Instance error_eq_dec : EqDecision error.
Proof. solve_decision. Defined.

#[global] Instance result_ret : MRet (sum error) := fun _ a => inr a.
#[global] Instance result_bind : MBind (sum error) := fun _ _ k m =>
  match m with
  | inl e => inl e
  | inr a => k a
  end.

(** A reader consumes a prefix of the buffer and leaves the rest. *)
Definition reader (A : Type) : Type := list byte -> error + (A * list byte).

(** Modelled from the spec: [ReadInt], [WriteInt], [ReadZp], [WriteZp],
    [ReadZZarray], [WriteZZarray], [ReadBitstring] and [WriteBitstring] are
    code of the repository outside the two files embedded here. The
    specification (section 6) has [svalues] and [elements] as a
    "length-prefixed sequence of big-integer encodings" and the key with a
    "byte (de)serialization" that round-trips. The model writes a count as
    four big-endian bytes, a big integer of the field of [p] big-endian in
    as many bytes as [p] takes, a sequence as its count followed by its
    items, and a bit string as its bit count, its byte count and its bytes.
    Readers read from the front of the buffer, as from a [bytes.Buffer],
    and fail with [ErrEOF] when it ends early. *)
Definition WriteInt (n : Z) : list byte :=
  [byte_of_Z (n / 2 ^ 24); byte_of_Z (n / 2 ^ 16); byte_of_Z (n / 2 ^ 8); byte_of_Z n].

Definition ReadInt : reader Z := fun b =>
  match b with
  | b0 :: b1 :: b2 :: b3 :: rest => inr (big_SetBytes [b0; b1; b2; b3], rest)
  | _ => inl ErrEOF
  end.

Definition ReadFull (n : nat) : reader (list byte) := fun b =>
  if (length b <? n)%nat then inl ErrEOF
  else inr (take n b, drop n b).

(** The bytes an element of the field of [p] is written in. *)
Definition ZpNbytes (p : Z) : nat := length (big_Bytes p).

Definition WriteZp (p : Z) (z : Zp) : list byte :=
  let num := big_Bytes (Int z) in
  replicate (ZpNbytes p - length num) x00 ++ num.

Definition ReadZp (p : Z) : reader Zp := fun b =>
  '(bytes, b1) ← ReadFull (ZpNbytes p) b;
  inr (mkZp (big_SetBytes bytes) p, b1).

Fixpoint WriteZps (p : Z) (arr : list Zp) : list byte :=
  match arr with
  | [] => []
  | z :: rest => WriteZp p z ++ WriteZps p rest
  end.

Definition WriteZZarray (p : Z) (arr : list Zp) : list byte :=
  WriteInt (Z.of_nat (length arr)) ++ WriteZps p arr.

Fixpoint ReadZps (p : Z) (count : nat) : reader (list Zp) := fun b =>
  match count with
  | O => inr ([], b)
  | S c =>
      '(z, b1) ← ReadZp p b;
      '(zs, b2) ← ReadZps p c b1;
      inr (z :: zs, b2)
  end.

Definition ReadZZarray (p : Z) (b : list byte) : error + list Zp :=
  '(n, b1) ← ReadInt b;
  '(zs, _) ← ReadZps p (Z.to_nat n) b1;
  inr zs.

Definition WriteBitstring (bs : Bitstring) : list byte :=
  WriteInt (BitLen bs) ++ WriteInt (Z.of_nat (length (Bytes bs))) ++ Bytes bs.

Definition ReadBitstring (b : list byte) : outcome (error + Bitstring) :=
  match ReadInt b with
  | inl e => Ok (inl e)
  | inr (nbits, b1) =>
      bs ← NewBitstring nbits;
      match ReadInt b1 with
      | inl e => Ok (inl e)
      | inr (nbytes, b2) =>
          match ReadFull (Z.to_nat nbytes) b2 with
          | inl e => Ok (inl e)
          | inr (bytes, _) => Ok (inr (SetBytes bs bytes))
          end
      end
  end.

(** ** recon/mgo/ptree.go *)

(** The fields of [config] the tree reads (through [settings]). *)
Record config : Type := mkConfig {
  threshMult : Z;
  bitQuantum : Z;
  mBar : Z;
  splitThreshold : Z;
  joinThreshold : Z;
  numSamples : Z
}.

(** [type nodeData struct] *)
Record nodeData : Type := mkNodeData {
  key : list byte;
  numElements : Z;
  svalues : list byte;
  elements : list byte;
  childKeys : list Z
}.

#[global] Instance nodeData_eq_dec : EqDecision nodeData.
Proof. solve_decision. Defined.

(** The collection "ptree": its documents, in the order [Find] meets them. *)
Definition collection : Type := list nodeData.

(** [type prefixTree struct]: the settings and the sample points; the
    collection handle [store] is the state of the monad. *)
Record prefixTree : Type := mkPrefixTree {
  settings : config;
  points : list Zp
}.

Definition BitQuantum (t : prefixTree) : Z := bitQuantum (settings t).
Definition SplitThreshold (t : prefixTree) : Z := splitThreshold (settings t).
Definition NumSamples (t : prefixTree) : Z := numSamples (settings t).
Definition Points (t : prefixTree) : list Zp := points t.

(** One call of [insert]: the receiver when the call starts and when it
    returns. *)
Record visit : Type := mkVisit { before : nodeData; after : nodeData }.

(** [s.config.splitThreshold = ...] and the two lines after it in
    [settings.Init]. *)
Definition derive (c : config) : config :=
  let st := wrap_int (threshMult c * mBar c) in
  mkConfig (threshMult c) (bitQuantum c) (mBar c)
    st (Z.quot st 2) (wrap_int (mBar c + 1)).

Section PrefixTree.

(** The modulus [P_SKS] is a package variable declared outside the two
    files: a parameter. *)
Variable P_SKS : Z.

(** Modelled from the spec: [Z(p)] is defined outside the two files; a
    new element, zero, of the field of [p]. *)
Definition Z_ (p : Z) : Zp := mkZp 0 p.

(** Modelled from the spec: the subtraction of [Zp] is not among the
    methods embedded above; the difference, normalized like [Add] and
    [Mul] (section 4.1). *)
Definition Sub (zp x y : Zp) : outcome Zp :=
  _ ← assertP zp [x; y];
  Norm (mkZp (Int x - Int y) (P zp)).

(** Modelled from the spec: [AddElementArray] belongs to the recon
    package, outside the two files; "a precomputed delta vector [point_j - element] for every sample
    point" (section 4.3). *)
Definition AddElementArray (t : prefixTree) (z : Zp) : outcome (list Zp) :=
  for_each (Points t) (fun pt acc => d ← Sub (Z_ (P z)) pt z; mret (acc ++ [d])) [].

(** The bit string an element is filed under: the first two lines of
    [Insert], and of the loop body of [split]. *)
Definition element_key (z : Zp) : outcome Bitstring :=
  bs ← NewBitstring (big_BitLen P_SKS);
  mret (SetBytes bs (ReverseBytes (big_Bytes (Int z)))).

(** [t.store.Find(bson.M{"key": k}).One(nd)] *)
Definition find_one (k : list byte) : M collection (error + nodeData) :=
  st ← get_state;
  match List.find (fun nd => bool_decide (key nd = k)) st with
  | Some nd => mret (inr nd)
  | None => mret (inl ErrNotFound)
  end.

Definition Root (t : prefixTree) : M collection (error + nodeData) :=
  find_one [].

Definition Node (t : prefixTree) (bs : Bitstring) : M collection (error + nodeData) :=
  find_one (Bytes bs).

(** [Remove] has one statement: [panic("remove not impl")]. *)
Definition Remove (t : prefixTree) (z : Zp) : M collection (option error) :=
  panic "remove not impl".

Definition IsLeaf (n : nodeData) : bool :=
  Z.of_nat (length (childKeys n)) =? 0.

Definition Key (n : nodeData) : outcome Bitstring :=
  r ← ReadBitstring (key n);
  match r with
  | inr bs => Ok bs
  | inl _ => Panic "Invalid bitstring"
  end.

Definition Elements (n : nodeData) : outcome (list Zp) :=
  match ReadZZarray P_SKS (elements n) with
  | inr l => Ok l
  | inl _ => Panic "Invalid elements"
  end.

Definition Size (n : nodeData) : Z := numElements n.

Definition SValues (n : nodeData) : outcome (list Zp) :=
  match ReadZZarray P_SKS (svalues n) with
  | inr l => Ok l
  | inl _ => Panic "Invalid elements"
  end.

(** The inner loop of [Children] and of [newChildNode]: bit [j] of the
    index goes to position [base + j]. *)
Definition set_index_bits (t : prefixTree) (index base : Z) (childKey : Bitstring)
    : outcome Bitstring :=
  for_lt (BitQuantum t)
    (fun j ck =>
       if index_bit index j then Set_ ck (base + j) else Unset ck (base + j))
    childKey.

(** The key [Children] looks child [i] up with. *)
Definition Children_key (t : prefixTree) (k : Bitstring) (i : Z) : outcome Bitstring :=
  childKey ← NewBitstring (BitLen k);
  set_index_bits t i (BitLen k) (SetBytes childKey (Bytes k)).

Definition Children (t : prefixTree) (n : nodeData) : M collection (list nodeData) :=
  k ← lift (Key n);
  for_lt (BitQuantum t)
    (fun i result =>
       childKey ← lift (Children_key t k i);
       r ← Node t childKey;
       match r with
       | inl _ => panic "Children failed on child"
       | inr child => mret (result ++ [child])
       end)
    [].

(** The key [Parent] looks the parent up with; a key that does not
    decode leaves a nil [*Bitstring] behind, and the next line panics. *)
Definition Parent_key (t : prefixTree) (n : nodeData) : outcome Bitstring :=
  r ← ReadBitstring (key n);
  match r with
  | inl _ => Panic "nil pointer dereference"
  | inr k =>
      parentKey ← NewBitstring (BitLen k - BitQuantum t);
      mret (SetBytes parentKey (Bytes k))
  end.

(** [(PrefixNode, bool)] is an [option]. *)
Definition Parent (t : prefixTree) (n : nodeData) : M collection (option nodeData) :=
  if Z.of_nat (length (key n)) =? 0 then mret None
  else
    parentKey ← lift (Parent_key t n);
    r ← Node t parentKey;
    match r with
    | inl _ => panic "Failed to get parent"
    | inr parent => mret (Some parent)
    end.

Definition newChildNode (t : prefixTree) (parent : nodeData) (childIndex : Z)
    : outcome nodeData :=
  k ← Key parent;
  childKey ← NewBitstring (BitLen k + BitQuantum t);
  childKey ← set_index_bits t childIndex (BitLen k) (SetBytes childKey (Bytes k));
  mret (mkNodeData (WriteBitstring childKey) 0 [] [] []).

(** [svalues[i] = Z(z.P).Mul(svalues[i], marray[i])] for [i] below
    [len(marray)]. *)
Definition mul_svalues (z : Zp) (marray svalues : list Zp) : outcome (list Zp) :=
  for_lt (Z.of_nat (length marray))
    (fun i svs =>
       match svs !! Z.to_nat i, marray !! Z.to_nat i with
       | Some sv, Some m => r ← Mul (Z_ (P z)) sv m; mret (<[Z.to_nat i := r]> svs)
       | _, _ => Panic "index out of range"
       end)
    svalues.

Definition updateSvalues (t : prefixTree) (n : nodeData) (z : Zp) (marray : list Zp)
    : outcome nodeData :=
  if negb (Z.of_nat (length marray) =? Z.of_nat (length (points t)))
  then Panic "Inconsistent NumSamples size"
  else
    match ReadZZarray P_SKS (svalues n) with
    | inl _ => Panic "Failed to read svalues"
    | inr svs =>
        svs' ← mul_svalues z marray svs;
        mret (mkNodeData (key n) (numElements n) (WriteZZarray P_SKS svs')
                (elements n) (childKeys n))
    end.

(** Modelled from the spec: [NextChild] belongs to the recon package,
    outside the two files; "select the child whose key matches the
    next [bitQuantum] bits of the element's key (from the current depth)"
    (section 4.3), the children being those [Children] returns. *)
Definition child_index (t : prefixTree) (bs : Bitstring) (depth : Z) : outcome Z :=
  for_lt (BitQuantum t)
    (fun j idx =>
       b ← Get bs (depth * BitQuantum t + j);
       mret (Z.lor idx (Z.shiftl b j)))
    0.

Definition NextChild (t : prefixTree) (n : nodeData) (bs : Bitstring) (depth : Z)
    : M collection nodeData :=
  children ← Children t n;
  idx ← lift (child_index t bs depth);
  match children !! Z.to_nat idx with
  | Some child => mret child
  | None => panic "index out of range"
  end.

Definition set_elements (n : nodeData) (e : list byte) : nodeData :=
  mkNodeData (key n) (numElements n) (svalues n) e (childKeys n).

Definition incr_numElements (n : nodeData) : nodeData :=
  mkNodeData (key n) (wrap_int (numElements n + 1)) (svalues n) (elements n)
    (childKeys n).

(** The [else] branch of [insert] for a leaf below the threshold. The
    output buffer starts as [bytes.NewBuffer(n.elements)], so what is
    written goes after the bytes that are there. *)
Definition append_element (n : nodeData) (z : Zp) : nodeData * option error :=
  match ReadZZarray P_SKS (elements n) with
  | inl e => (n, Some e)
  | inr l => (set_elements n (elements n ++ WriteZZarray P_SKS (l ++ [z])), None)
  end.

(** [split], with the call [child.insert] as a parameter: [insert] and
    [split] call each other. The children [newChildNode] makes are
    dropped by the loop; the result of [child.insert] is dropped too. *)
Definition split_with
    (child_insert : nodeData -> Zp -> list Zp -> Bitstring -> Z ->
                    M collection (list visit * option error))
    (t : prefixTree) (n : nodeData) (depth : Z) : M collection nodeData :=
  let numChildren := shl_one (to_uint (BitQuantum t)) in
  _ ← for_lt numChildren
        (fun i (_ : unit) => _ ← lift (newChildNode t n i); mret tt) tt;
  match ReadZZarray P_SKS (elements n) with
  | inl _ => panic "Error reading elements"
  | inr elems =>
      _ ← for_each elems
            (fun element (_ : unit) =>
               bs ← lift (element_key element);
               child ← NextChild t n bs depth;
               marray ← lift (AddElementArray t element);
               _ ← child_insert child element marray bs (depth + 1);
               mret tt)
            tt;
      mret (set_elements n [])
  end.

(** [fuel] bounds the depth of the calls. [insert] gives the visits of
    the path it walked, the receiver first, and the [error] it returns. *)
Fixpoint insert (fuel : nat) (t : prefixTree) (n : nodeData) (z : Zp)
    (marray : list Zp) (bs : Bitstring) (depth : Z) {struct fuel}
    : M collection (list visit * option error) :=
  match fuel with
  | O => out_of_fuel
  | S fuel' =>
      n1 ← lift (updateSvalues t n z marray);
      let n2 := incr_numElements n1 in
      let descend (n3 : nodeData) : M collection (list visit * option error) :=
        child ← NextChild t n3 bs depth;
        '(path, err) ← insert fuel' t child z marray bs (depth + 1);
        mret (mkVisit n n3 :: path, err) in
      if IsLeaf n2 then
        if Z.of_nat (length (elements n2)) >? SplitThreshold t then
          n3 ← split_with (insert fuel' t) t n2 depth;
          descend n3
        else
          let '(n3, err) := append_element n2 z in
          mret ([mkVisit n n3], err)
      else descend n2
  end.

Definition split (fuel : nat) (t : prefixTree) (n : nodeData) (depth : Z)
    : M collection nodeData :=
  split_with (insert fuel t) t n depth.

(** The calls of [insert] go one level down at a time and [NextChild]
    reads [bitQuantum] bits of the key per level, so the bits the key
    has room for bound the depth. *)
Definition insert_fuel (bs : Bitstring) : nat := S (8 * length (buf bs)).

(** [func (t *prefixTree) Insert(z *Zp) error] *)
Definition Insert (t : prefixTree) (z : Zp) : M collection (list visit * option error) :=
  bs ← lift (element_key z);
  r ← Root t;
  match r with
  | inl e => mret ([], Some e)
  | inr root =>
      marray ← lift (AddElementArray t z);
      insert (insert_fuel bs) t root z marray bs 0
  end.

End PrefixTree.

(** ** The moduli of unnamed/part_000 *)

(** [big.NewInt(0).SetBytes([]byte{...})] *)
Definition p_128 : Z := big_SetBytes (map byte_of_Z [
  0x1;0x11;0xd;0xb2;0x97;0xcd;0x30;0x8d;
  0x90;0xe5;0x3f;0xb8;0xa1;0x30;0x90;0x97;0xe9]).

Definition p_160 : Z := big_SetBytes (map byte_of_Z [
  0x1;0xfe;0x90;0xe7;0xb4;0x19;0x88;0xa6;
  0x41;0xb1;0xa6;0xfe;0xc8;0x7d;0x89;0xa3;
  0x1e;0x2a;0x61;0x31;0xf5]).

Definition p_256 : Z := big_SetBytes (map byte_of_Z [
  0x1;0xdd;0xf4;0x8a;0xc3;0x45;0x19;0x18;
  0x13;0xab;0x7d;0x92;0x27;0x99;0xe8;0x93;
  0x96;0x19;0x43;0x8;0xa4;0xa5;0x9;0xb;
  0x36;0xc9;0x62;0xd5;0xd5;0xd6;0xdd;0x80;0x27]).

Definition p_512 : Z := big_SetBytes (map byte_of_Z [
  0x1;0xc7;0x19;0x72;0x25;0xf4;0xa5;0xd5;
  0x8a;0xc0;0x2;0xa4;0xdc;0x8d;0xb1;0xd9;
  0xb0;0xa1;0x5b;0x7a;0x43;0x22;0x5d;0x5b;
  0x51;0xa8;0x1c;0x76;0x17;0x44;0x2a;0x4a;
  0x9c;0x62;0xdc;0x9e;0x25;0xd6;0xe3;0x12;
  0x1a;0xea;0xef;0xac;0xd9;0xfd;0x8d;0x6c;
  0xb7;0x26;0x6d;0x19;0x15;0x53;0xd7;0xd;
  0xb6;0x68;0x3b;0x65;0x40;0x89;0x18;0x3e;0xbd]).

(** * Specification predicates *)

(** The invariant of a field element. *)
Definition in_field (z : Zp) : Prop := 0 <= Int z < P z.

(** A computation that leaves the state as it found it, whatever it
    returns. *)
Definition read_only {S A : Type} (m : M S A) : Prop :=
  forall s r s', m s = Some (r, s') -> s' = s.

(** A computation that does not run out of fuel. *)
Definition total {S A : Type} (m : M S A) : Prop :=
  forall s, is_Some (m s).

(** * Example data

    A tree over the field of 97 with [bitQuantum = 2] and [mBar = 2], so
    three sample points and a split threshold of six bytes. *)
Definition example_config : config := derive (mkConfig 3 2 2 0 0 0).

Definition example_tree : prefixTree :=
  mkPrefixTree example_config [mkZp 0 97; mkZp 96 97; mkZp 1 97].

Definition example_svalues : list byte :=
  WriteZZarray 97 [mkZp 1 97; mkZp 1 97; mkZp 1 97].

(** The root: the empty key, no element yet. *)
Definition example_root : nodeData :=
  mkNodeData [] 0 example_svalues (WriteZZarray 97 []) [].

(** A node two bits down, under the key "10", without elements. *)
Definition example_node : nodeData :=
  mkNodeData (WriteBitstring (mkBitstring [byte_of_Z 128] 2)) 0 example_svalues
    (WriteZZarray 97 []) [].

(** The same node holding the elements 5 and 6 and one byte more, which
    puts its payload over the threshold. *)
Definition example_full_node : nodeData :=
  mkNodeData (WriteBitstring (mkBitstring [byte_of_Z 128] 2)) 2 example_svalues
    (WriteZZarray 97 [mkZp 5 97; mkZp 6 97] ++ [x00]) [].

(** Two documents filed under the bytes [Children] asks for below
    [example_node]. *)
Definition example_children : collection :=
  [mkNodeData [byte_of_Z 128] 1 example_svalues (WriteZZarray 97 []) [];
   mkNodeData [byte_of_Z 160] 2 example_svalues (WriteZZarray 97 []) []].

(** * More specification predicates *)

(** A field element as a reader returns it: of the field of [p] and
    short enough for the bytes an element is written in. *)
Definition wf_zp (p : Z) (z : Zp) : Prop :=
  P z = p /\ 0 <= Int z < 256 ^ Z.of_nat (ZpNbytes p).


(** * Bit strings *)


(** [Set] or [Unset], by the value of the bit. *)
Definition byte_put (v : bool) (bit : Z) : byte -> byte :=
  if v then byte_set bit else byte_unset bit.




(** * Tactics *)

(** Arithmetic of byte indices and bit offsets: goals with [/ 8] and
    [mod 8]. *)
Ltac div8 := Z.div_mod_to_equations; lia.

(** * More example data *)

(** [example_node] as an internal node: [childKeys] is not empty. *)
Definition example_internal_node : nodeData :=
  mkNodeData (WriteBitstring (mkBitstring [byte_of_Z 128] 2)) 0 example_svalues
    [] [0; 1; 2; 3].

(** The delta vector and the key of the element 9 in the field of 97. *)
Definition example_marray : list Zp := [mkZp 88 97; mkZp 87 97; mkZp 89 97].

Definition example_key : Bitstring := mkBitstring [byte_of_Z 8] 7.

(** The moduli by the width of the values they are for. *)
Definition moduli : list (Z * Z) :=
  [(128, p_128); (160, p_160); (256, p_256); (512, p_512)].

(** * Properties *)

(** ** Field arithmetic *)

Lemma big_Cmp_refl (x : Z) : big_Cmp x x = 0.
Proof. unfold big_Cmp. by rewrite Z.compare_refl. Qed.

Lemma big_Cmp_eq (x y : Z) : big_Cmp x y = 0 <-> x = y.
Proof.
  unfold big_Cmp. destruct (Z.compare_spec x y); split; intros; try lia; done.
Qed.

Lemma big_Mod_pos (x y : Z) : 0 < y -> big_Mod x y = Ok (x mod y).
Proof.
  intros Hy. unfold big_Mod.
  destruct (Z.eqb_spec y 0); [lia|]. by rewrite Z.abs_eq by lia.
Qed.

Lemma big_Mod_range (x y r : Z) : big_Mod x y = Ok r -> 0 <= r < Z.abs y.
Proof.
  unfold big_Mod. destruct (Z.eqb_spec y 0); [done|].
  intros [= <-]. apply Z.mod_pos_bound. lia.
Qed.

Lemma assertP_same (zp : Zp) (values : list Zp) :
  Forall (fun v => P v = P zp) values -> assertP zp values = Ok tt.
Proof.
  induction 1 as [|v vs Hv _ IH]; [done|].
  simpl. by rewrite Hv, big_Cmp_refl.
Qed.

Lemma assertP_Ok (zp : Zp) (values : list Zp) (u : unit) :
  assertP zp values = Ok u -> Forall (fun v => P v = P zp) values.
Proof.
  induction values as [|v vs IH]; [constructor|].
  simpl. destruct (Z.eqb_spec (big_Cmp (P zp) (P v)) 0) as [E|]; [|done].
  intros H. constructor; [|by apply IH].
  symmetry. by apply big_Cmp_eq.
Qed.

(** C9. For field elements [x] and [y] of the modulus of the receiver, a
    positive number, [Add] gives [(x + y) mod P] and [Mul] gives
    [(x * y) mod P], and these values, like the value of [NewZp p n] for any
    [n], negative ones included, lie in [0, P). *)
Theorem Zp_Add_Mul_NewZp_in_field (zp x y : Zp) (p n : Z) :
  0 < P zp -> P x = P zp -> P y = P zp -> 0 < p ->
  Add zp x y = Ok (mkZp ((Int x + Int y) mod P zp) (P zp)) /\
  Mul zp x y = Ok (mkZp ((Int x * Int y) mod P zp) (P zp)) /\
  NewZp p n = Ok (mkZp (n mod p) p) /\
  in_field (mkZp ((Int x + Int y) mod P zp) (P zp)) /\
  in_field (mkZp ((Int x * Int y) mod P zp) (P zp)) /\
  in_field (mkZp (n mod p) p).
Proof.
  intros Hp Hx Hy Hp'.
  assert (HA : assertP zp [x; y] = Ok tt)
    by (apply assertP_same; repeat constructor; done).
  unfold Add, Mul, NewZp, Norm, in_field; simpl Int; simpl P.
  rewrite HA. simpl. rewrite !big_Mod_pos by done. simpl.
  repeat split; try done; apply Z.mod_pos_bound; done.
Qed.

Lemma Zp_Add_Mul_NewZp_in_field_witness :
  Add (mkZp 0 7) (mkZp 5 7) (mkZp 4 7) = Ok (mkZp 2 7) /\
  Mul (mkZp 0 7) (mkZp 5 7) (mkZp 4 7) = Ok (mkZp 6 7) /\
  NewZp 7 (-3) = Ok (mkZp 4 7).
Proof.
  pose proof (Zp_Add_Mul_NewZp_in_field (mkZp 0 7) (mkZp 5 7) (mkZp 4 7) 7 (-3))
    as H.
  simpl in H.
  destruct H as (HA & HM & HN & _); [lia | reflexivity | reflexivity | lia |].
  exact (conj HA (conj HM HN)).
Defined.

(** ** Field arithmetic on the heap *)

Section ZpHeapFacts.
Import ZpHeap.

Lemma deref_run (h : heap) (p : loc) (s : ZpStruct) :
  zps h !! p = Some s -> deref p h = Some (Ok s, h).
Proof. intros E. unfold deref. by rewrite E. Qed.

Lemma load_run (h : heap) (l : loc) (v : Z) :
  ints h !! l = Some v -> load l h = Some (Ok v, h).
Proof. intros E. unfold load. by rewrite E. Qed.

Lemma store_run (h : heap) (l : loc) (v : Z) :
  is_Some (ints h !! l) ->
  store l v h = Some (Ok tt, mkHeap (<[l := v]> (ints h)) (zps h)).
Proof. intros [w E]. unfold store. by rewrite E. Qed.

Lemma bind_run {S A B} (m : M S A) (k : A -> M S B) (s s' : S) (a : A) :
  m s = Some (Ok a, s') -> (a ← m; k a) s = k a s'.
Proof. intros E. unfold mbind, M_bind. by rewrite E. Qed.

Lemma assertP_run (h : heap) (zp : loc) (values : list loc) (s : ZpStruct) (p : Z) :
  zps h !! zp = Some s -> ints h !! P_ptr s = Some p ->
  Forall (fun v => exists sv, zps h !! v = Some sv /\ ints h !! P_ptr sv = Some p)
    values ->
  assertP zp values h = Some (Ok tt, h).
Proof.
  intros Hs Hp. induction 1 as [|v vs (sv & Hsv & Hpv) _ IH]; [done|].
  simpl.
  rewrite (bind_run _ _ _ _ _ (deref_run _ _ _ Hs)).
  rewrite (bind_run _ _ _ _ _ (deref_run _ _ _ Hsv)).
  rewrite (bind_run _ _ _ _ _ (load_run _ _ _ Hp)).
  rewrite (bind_run _ _ _ _ _ (load_run _ _ _ Hpv)).
  by rewrite big_Cmp_refl.
Qed.

Lemma Norm_run (h : heap) (zp : loc) (s : ZpStruct) (a p : Z) :
  zps h !! zp = Some s -> ints h !! Int_ptr s = Some a ->
  ints h !! P_ptr s = Some p -> p <> 0 ->
  Norm zp h = Some (Ok tt, mkHeap (<[Int_ptr s := a mod Z.abs p]> (ints h)) (zps h)).
Proof.
  intros Hs Ha Hp Hp0. unfold Norm.
  rewrite (bind_run _ _ _ _ _ (deref_run _ _ _ Hs)).
  rewrite (bind_run _ _ _ _ _ (load_run _ _ _ Ha)).
  rewrite (bind_run _ _ _ _ _ (load_run _ _ _ Hp)).
  unfold big_Mod. destruct (Z.eqb_spec p 0); [done|].
  unfold mbind, M_bind, lift. apply store_run. eauto.
Qed.

(** What [Add] and [Mul] share: [op] is the [big.Int] operation. *)
Lemma binop_run (op : Z -> Z -> Z) (h : heap) (zp x y : loc)
    (s sx sy : ZpStruct) (a b p : Z) :
  zps h !! zp = Some s -> zps h !! x = Some sx -> zps h !! y = Some sy ->
  ints h !! Int_ptr sx = Some a -> ints h !! Int_ptr sy = Some b ->
  ints h !! P_ptr s = Some p -> ints h !! P_ptr sx = Some p ->
  ints h !! P_ptr sy = Some p ->
  p <> 0 -> is_Some (ints h !! Int_ptr s) -> Int_ptr s <> P_ptr s ->
  (_ ← assertP zp [x; y];
   s ← deref zp; sx ← deref x; sy ← deref y;
   a ← load (Int_ptr sx); b ← load (Int_ptr sy);
   _ ← store (Int_ptr s) (op a b);
   _ ← Norm zp;
   mret zp) h
  = Some (Ok zp, mkHeap (<[Int_ptr s := op a b mod Z.abs p]> (ints h)) (zps h)).
Proof.
  intros Hs Hsx Hsy Ha Hb Hp Hpx Hpy Hp0 Hz Hne.
  rewrite (bind_run _ _ _ _ _ (assertP_run h zp [x; y] s p Hs Hp
             ltac:(repeat constructor; eauto))).
  rewrite (bind_run _ _ _ _ _ (deref_run _ _ _ Hs)).
  rewrite (bind_run _ _ _ _ _ (deref_run _ _ _ Hsx)).
  rewrite (bind_run _ _ _ _ _ (deref_run _ _ _ Hsy)).
  rewrite (bind_run _ _ _ _ _ (load_run _ _ _ Ha)).
  rewrite (bind_run _ _ _ _ _ (load_run _ _ _ Hb)).
  rewrite (bind_run _ _ _ _ _ (store_run _ _ (op a b) Hz)).
  erewrite bind_run; last first.
  { eapply (Norm_run _ zp s (op a b) p); simpl; [done| |by rewrite lookup_insert_ne|done].
    by rewrite lookup_insert_eq. }
  simpl. by rewrite insert_insert_eq.
Qed.

Lemma value_frame (h : heap) (l : loc) (v : Z) (q : loc) (sq : ZpStruct) :
  zps h !! q = Some sq -> l <> Int_ptr sq -> l <> P_ptr sq ->
  value (mkHeap (<[l := v]> (ints h)) (zps h)) q = value h q.
Proof.
  intros Hq H1 H2. unfold value. simpl. rewrite Hq. simpl.
  by rewrite !lookup_insert_ne.
Qed.

End ZpHeapFacts.

(** On values, [Add] and [Mul] give what the heap versions leave in the
    receiver. *)
Lemma Add_Mul_value (z0 a b p : Z) :
  p <> 0 ->
  Add (mkZp z0 p) (mkZp a p) (mkZp b p) = Ok (mkZp ((a + b) mod Z.abs p) p) /\
  Mul (mkZp z0 p) (mkZp a p) (mkZp b p) = Ok (mkZp ((a * b) mod Z.abs p) p).
Proof.
  intros Hp. unfold Add, Mul, Norm, big_Mod. simpl.
  rewrite big_Cmp_refl. simpl.
  by destruct (Z.eqb_spec p 0).
Qed.

(** C10. [Add] and [Mul] write their result through the receiver's [Int]
    pointer and return the receiver pointer: the value read back through
    the returned pointer is the result. Nothing else in the heap changes,
    so an operand that shares no [big.Int] with the receiver's value, as
    with the new receiver [Z(z.P)] of [updateSvalues], keeps its value
    (hypotheses: the pointers are live, the moduli agree and are not zero,
    and the receiver's value is not its own modulus). *)
Theorem ZpHeap_Add_Mul_in_place (h : ZpHeap.heap) (zp x y : ZpHeap.loc)
    (s sx sy : ZpHeap.ZpStruct) (a b p : Z) :
  ZpHeap.zps h !! zp = Some s -> ZpHeap.zps h !! x = Some sx ->
  ZpHeap.zps h !! y = Some sy ->
  ZpHeap.ints h !! ZpHeap.Int_ptr sx = Some a ->
  ZpHeap.ints h !! ZpHeap.Int_ptr sy = Some b ->
  ZpHeap.ints h !! ZpHeap.P_ptr s = Some p ->
  ZpHeap.ints h !! ZpHeap.P_ptr sx = Some p ->
  ZpHeap.ints h !! ZpHeap.P_ptr sy = Some p ->
  p <> 0 -> is_Some (ZpHeap.ints h !! ZpHeap.Int_ptr s) ->
  ZpHeap.Int_ptr s <> ZpHeap.P_ptr s ->
  let written v :=
    ZpHeap.mkHeap (<[ZpHeap.Int_ptr s := v mod Z.abs p]> (ZpHeap.ints h))
      (ZpHeap.zps h) in
  ZpHeap.Add zp x y h = Some (Ok zp, written (a + b)) /\
  ZpHeap.Mul zp x y h = Some (Ok zp, written (a * b)) /\
  (forall v, ZpHeap.value (written v) zp = Some (mkZp (v mod Z.abs p) p)) /\
  (forall v (l : ZpHeap.loc), l <> ZpHeap.Int_ptr s ->
     ZpHeap.ints (written v) !! l = ZpHeap.ints h !! l) /\
  (forall v, ZpHeap.Int_ptr s <> ZpHeap.Int_ptr sx ->
     ZpHeap.Int_ptr s <> ZpHeap.P_ptr sx ->
     ZpHeap.value (written v) x = ZpHeap.value h x) /\
  (forall v, ZpHeap.Int_ptr s <> ZpHeap.Int_ptr sy ->
     ZpHeap.Int_ptr s <> ZpHeap.P_ptr sy ->
     ZpHeap.value (written v) y = ZpHeap.value h y).
Proof.
  intros Hs Hsx Hsy Ha Hb Hp Hpx Hpy Hp0 Hz Hne written.
  split; [|split; [|split; [|split; [|split]]]].
  - by apply (binop_run Z.add h zp x y s sx sy a b p).
  - by apply (binop_run Z.mul h zp x y s sx sy a b p).
  - intros v. unfold ZpHeap.value, written. simpl. rewrite Hs. simpl.
    rewrite lookup_insert_eq. simpl. rewrite lookup_insert_ne by done.
    by rewrite Hp.
  - intros v l Hl. unfold written. simpl. by rewrite lookup_insert_ne.
  - intros v H1 H2. by apply (value_frame h _ _ x sx).
  - intros v H1 H2. by apply (value_frame h _ _ y sy).
Qed.

Lemma ZpHeap_Add_Mul_in_place_witness :
  let h := ZpHeap.mkHeap
             (<[1%positive := 0]> (<[2%positive := 5]> (<[3%positive := 4]>
                (<[4%positive := 7]> ∅))))
             (<[10%positive := ZpHeap.mkStruct 1%positive 4%positive]>
                (<[11%positive := ZpHeap.mkStruct 2%positive 4%positive]>
                   (<[12%positive := ZpHeap.mkStruct 3%positive 4%positive]> ∅))) in
  exists h',
    ZpHeap.Mul 10%positive 11%positive 12%positive h = Some (Ok 10%positive, h') /\
    ZpHeap.value h' 10%positive = Some (mkZp 6 7) /\
    ZpHeap.value h' 11%positive = Some (mkZp 5 7) /\
    ZpHeap.value h' 12%positive = Some (mkZp 4 7).
Proof.
  intros h.
  destruct (ZpHeap_Add_Mul_in_place h 10%positive 11%positive 12%positive
              (ZpHeap.mkStruct 1%positive 4%positive) (ZpHeap.mkStruct 2%positive 4%positive) (ZpHeap.mkStruct 3%positive 4%positive)
              5 4 7)
    as (_ & HM & Hv & _ & Hx & Hy);
    [reflexivity .. | lia | by eexists | simpl; lia |].
  eexists. split; [exact HM|].
  split; [exact (Hv (5 * 4))|].
  split; [rewrite Hx by (simpl; lia); reflexivity
         |rewrite Hy by (simpl; lia); reflexivity].
Defined.

(** ** The monad *)

Lemma bind_Ok_inv {S A B} (m : M S A) (k : A -> M S B) (s s2 : S) (b : B) :
  (a ← m; k a) s = Some (Ok b, s2) ->
  exists a s1, m s = Some (Ok a, s1) /\ k a s1 = Some (Ok b, s2).
Proof.
  unfold mbind, M_bind. destruct (m s) as [[[a|msg] s1]|]; [eauto|done|done].
Qed.

Lemma outcome_bind_Ok_inv {A B} (m : outcome A) (k : A -> outcome B) (b : B) :
  (a ← m; k a) = Ok b -> exists a, m = Ok a /\ k a = Ok b.
Proof. unfold mbind, outcome_bind. destruct m; [eauto|done]. Qed.

Lemma lift_Ok_inv {S A} (o : outcome A) (s s' : S) (a : A) :
  lift o s = Some (Ok a, s') -> o = Ok a /\ s' = s.
Proof. unfold lift. by intros [= -> ->]. Qed.

Lemma read_only_ret {S A} (a : A) : read_only (mret a : M S A).
Proof. by intros s r s' [= _ ->]. Qed.

Lemma read_only_lift {S A} (o : outcome A) : read_only (lift o : M S A).
Proof. by intros s r s' [= _ ->]. Qed.

Lemma read_only_panic {S A} (msg : string) : read_only (panic msg : M S A).
Proof. by intros s r s' [= _ ->]. Qed.

Lemma read_only_out_of_fuel {S A} : read_only (out_of_fuel : M S A).
Proof. by intros s r s'. Qed.

Lemma read_only_get_state {S} : read_only (get_state : M S S).
Proof. by intros s r s' [= _ ->]. Qed.

Lemma read_only_bind {S A B} (m : M S A) (k : A -> M S B) :
  read_only m -> (forall a, read_only (k a)) -> read_only (a ← m; k a).
Proof.
  intros Hm Hk s r s'. unfold mbind, M_bind.
  destruct (m s) as [[[a|msg] s1]|] eqn:E; [|by intros [= _ <-]; eauto|done].
  intros H. apply Hk in H. apply Hm in E. congruence.
Qed.

Lemma read_only_for_range {S A} (count : nat) (i : Z) (body : Z -> A -> M S A)
    (acc : A) :
  (forall j a, read_only (body j a)) -> read_only (for_range count i body acc).
Proof.
  intros Hb. revert i acc.
  induction count as [|c IH]; intros i acc; simpl.
  - apply read_only_ret.
  - apply read_only_bind; [apply Hb | intros a; apply IH].
Qed.

Lemma read_only_for_each {S A B} (l : list B) (body : B -> A -> M S A) (acc : A) :
  (forall x a, read_only (body x a)) -> read_only (for_each l body acc).
Proof.
  intros Hb. revert acc.
  induction l as [|x l IH]; intros acc; simpl.
  - apply read_only_ret.
  - apply read_only_bind; [apply Hb | intros a; apply IH].
Qed.

Lemma total_ret {S A} (a : A) : total (mret a : M S A).
Proof. intros s. by eexists. Qed.

Lemma total_lift {S A} (o : outcome A) : total (lift o : M S A).
Proof. intros s. by eexists. Qed.

Lemma total_panic {S A} (msg : string) : total (panic msg : M S A).
Proof. intros s. by eexists. Qed.

(** The continuation has to run only where the first part returned. *)
Lemma is_Some_bind {S A B} (m : M S A) (k : A -> M S B) (s : S) :
  is_Some (m s) ->
  (forall a s1, m s = Some (Ok a, s1) -> is_Some (k a s1)) ->
  is_Some ((a ← m; k a) s).
Proof.
  intros [[[a|msg] s1] E] Hk; unfold mbind, M_bind; rewrite E; [by eapply Hk|by eexists].
Qed.

Lemma total_bind {S A B} (m : M S A) (k : A -> M S B) :
  total m -> (forall a, total (k a)) -> total (a ← m; k a).
Proof. intros Hm Hk s. apply is_Some_bind; [apply Hm | intros; apply Hk]. Qed.

Lemma total_for_range {S A} (count : nat) (i : Z) (body : Z -> A -> M S A) (acc : A) :
  (forall j a, total (body j a)) -> total (for_range count i body acc).
Proof.
  intros Hb. revert i acc.
  induction count as [|c IH]; intros i acc; simpl.
  - apply total_ret.
  - apply total_bind; [apply Hb | intros a; apply IH].
Qed.

Lemma total_for_each {S A B} (l : list B) (body : B -> A -> M S A) (acc : A) :
  (forall x a, total (body x a)) -> total (for_each l body acc).
Proof.
  intros Hb. revert acc.
  induction l as [|x l IH]; intros acc; simpl.
  - apply total_ret.
  - apply total_bind; [apply Hb | intros a; apply IH].
Qed.

(** A loop that returns kept its invariant: [Inv k a s] after [k] rounds. *)
Lemma for_range_inv {St A} (Inv : nat -> A -> St -> Prop) (count : nat) (i : Z)
    (body : Z -> A -> M St A) (acc r : A) (s s' : St) :
  for_range count i body acc s = Some (Ok r, s') ->
  Inv 0%nat acc s ->
  (forall (k : nat) a st a' st',
     (k < count)%nat -> Inv k a st ->
     body (i + Z.of_nat k) a st = Some (Ok a', st') -> Inv (S k) a' st') ->
  Inv count r s'.
Proof.
  revert Inv i acc s.
  induction count as [|c IH]; intros Inv i acc s; simpl.
  - by intros [= <- <-].
  - intros H H0 Hstep. apply bind_Ok_inv in H as (a & s1 & Hb & Hrest).
    apply (IH (fun k => Inv (S k)) (i + 1) a s1 Hrest).
    + apply (Hstep 0%nat acc s); [lia|done|]. by rewrite Z.add_0_r.
    + intros k a0 st a' st' Hk HI Hbody.
      apply (Hstep (S k) a0 st); [lia|done|].
      by replace (i + Z.of_nat (S k)) with (i + 1 + Z.of_nat k) by lia.
Qed.

Lemma outcome_for_range_inv {A} (Inv : nat -> A -> Prop) (count : nat) (i : Z)
    (body : Z -> A -> outcome A) (acc r : A) :
  for_range count i body acc = Ok r ->
  Inv 0%nat acc ->
  (forall (k : nat) a a',
     (k < count)%nat -> Inv k a -> body (i + Z.of_nat k) a = Ok a' -> Inv (S k) a') ->
  Inv count r.
Proof.
  revert Inv i acc.
  induction count as [|c IH]; intros Inv i acc; simpl.
  - by intros [= <-].
  - intros H H0 Hstep. apply outcome_bind_Ok_inv in H as (a & Hb & Hrest).
    apply (IH (fun k => Inv (S k)) (i + 1) a Hrest).
    + apply (Hstep 0%nat acc); [lia|done|]. by rewrite Z.add_0_r.
    + intros k a0 a' Hk HI Hbody.
      apply (Hstep (S k) a0); [lia|done|].
      by replace (i + Z.of_nat (S k)) with (i + 1 + Z.of_nat k) by lia.
Qed.

(** ** The collection is only read *)

Lemma read_only_find_one (k : list byte) : read_only (find_one k).
Proof.
  unfold find_one. apply read_only_bind; [apply read_only_get_state|].
  intros st. destruct (find _ st); apply read_only_ret.
Qed.

Lemma read_only_Node (t : prefixTree) (bs : Bitstring) : read_only (Node t bs).
Proof. apply read_only_find_one. Qed.

Lemma read_only_Root (t : prefixTree) : read_only (Root t).
Proof. apply read_only_find_one. Qed.

Lemma read_only_Children (t : prefixTree) (n : nodeData) : read_only (Children t n).
Proof.
  unfold Children. apply read_only_bind; [apply read_only_lift|].
  intros k. apply read_only_for_range. intros i result.
  apply read_only_bind; [apply read_only_lift|]. intros childKey.
  apply read_only_bind; [apply read_only_Node|].
  intros [e|child]; [apply read_only_panic | apply read_only_ret].
Qed.

Lemma read_only_NextChild (t : prefixTree) (n : nodeData) (bs : Bitstring) (depth : Z) :
  read_only (NextChild t n bs depth).
Proof.
  unfold NextChild. apply read_only_bind; [apply read_only_Children|].
  intros children. apply read_only_bind; [apply read_only_lift|].
  intros idx. destruct (children !! _); [apply read_only_ret | apply read_only_panic].
Qed.

Lemma read_only_Parent (t : prefixTree) (n : nodeData) : read_only (Parent t n).
Proof.
  unfold Parent. destruct (_ =? 0); [apply read_only_ret|].
  apply read_only_bind; [apply read_only_lift|]. intros parentKey.
  apply read_only_bind; [apply read_only_Node|].
  intros [e|parent]; [apply read_only_panic | apply read_only_ret].
Qed.

Lemma read_only_split_with (P_SKS : Z) child_insert (t : prefixTree) (n : nodeData)
    (depth : Z) :
  (forall c z marray bs d, read_only (child_insert c z marray bs d)) ->
  read_only (split_with P_SKS child_insert t n depth).
Proof.
  intros Hc. unfold split_with.
  apply read_only_bind.
  { apply read_only_for_range. intros i u.
    apply read_only_bind; [apply read_only_lift | intros; apply read_only_ret]. }
  intros _. destruct (ReadZZarray _ _) as [e|elems]; [apply read_only_panic|].
  apply read_only_bind; [|intros; apply read_only_ret].
  apply read_only_for_each. intros element u.
  apply read_only_bind; [apply read_only_lift|]. intros bs.
  apply read_only_bind; [apply read_only_NextChild|]. intros child.
  apply read_only_bind; [apply read_only_lift|]. intros marray.
  apply read_only_bind; [apply Hc | intros; apply read_only_ret].
Qed.

Lemma read_only_insert (P_SKS : Z) (fuel : nat) (t : prefixTree) (n : nodeData)
    (z : Zp) (marray : list Zp) (bs : Bitstring) (depth : Z) :
  read_only (insert P_SKS fuel t n z marray bs depth).
Proof.
  revert n z marray bs depth.
  induction fuel as [|fuel IH]; intros n z marray bs depth; simpl.
  - apply read_only_out_of_fuel.
  - apply read_only_bind; [apply read_only_lift|]. intros n1.
    assert (Hd : forall n3,
      read_only (child ← NextChild t n3 bs depth;
                 '(path, err) ← insert P_SKS fuel t child z marray bs (depth + 1);
                 mret (mkVisit n n3 :: path, err))).
    { intros n3. apply read_only_bind; [apply read_only_NextChild|]. intros child.
      apply read_only_bind; [apply IH|]. intros [path err]. apply read_only_ret. }
    destruct (IsLeaf _); [|apply Hd].
    destruct (_ >? _).
    + apply read_only_bind; [|apply Hd]. by apply read_only_split_with.
    + destruct (append_element _ _ _). apply read_only_ret.
Qed.

Lemma read_only_Insert (P_SKS : Z) (t : prefixTree) (z : Zp) :
  read_only (Insert P_SKS t z).
Proof.
  unfold Insert. apply read_only_bind; [apply read_only_lift|]. intros bs.
  apply read_only_bind; [apply read_only_Root|].
  intros [e|root]; [apply read_only_ret|].
  apply read_only_bind; [apply read_only_lift|]. intros marray.
  apply read_only_insert.
Qed.

(** C6. On every collection and for every element, [Remove] panics with
    "remove not impl": it never returns, with or without an error, and the
    collection is what it was. *)
Theorem Remove_panics (t : prefixTree) (z : Zp) (st : collection) :
  Remove t z st = Some (Panic "remove not impl", st).
Proof. reflexivity. Qed.

(** C5, the statement as it stands fails: [Insert] returns without an
    error, the visit of the root has the count 1, and a fetch of the
    root's key still gives the record with the count 0. *)
Lemma Insert_not_written_back :
  exists v st',
    Insert 97 example_tree (mkZp 5 97) [example_root] = Some (Ok ([v], None), st') /\
    numElements (after v) = 1 /\
    find_one (key (after v)) st' = Some (Ok (inr example_root), st') /\
    after v <> example_root.
Proof.
  eexists _, _. split; [vm_compute; reflexivity|].
  split; [reflexivity|]. split; [reflexivity|]. discriminate.
Qed.

(** C5, as the code has it. [Insert] writes no node record to the
    collection: whatever it returns, the collection is the one it started
    from, and a fetch after the call gives what the same fetch gave before
    it. The new sample values, count and payload are in the visits only. *)
Theorem Insert_leaves_collection (P_SKS : Z) (t : prefixTree) (z : Zp)
    (st st' : collection) (r : outcome (list visit * option error)) :
  Insert P_SKS t z st = Some (r, st') ->
  st' = st /\ forall k, find_one k st' = find_one k st.
Proof.
  intros H. apply read_only_Insert in H. by subst.
Qed.

Lemma Insert_leaves_collection_witness :
  exists r st',
    Insert 97 example_tree (mkZp 5 97) [example_root] = Some (r, st') /\
    st' = [example_root].
Proof.
  destruct (Insert 97 example_tree (mkZp 5 97) [example_root])
    as [[r st']|] eqn:E; [|vm_compute in E; discriminate].
  exists r, st'. split; [reflexivity|].
  exact (proj1 (Insert_leaves_collection 97 example_tree (mkZp 5 97)
                  [example_root] st' r E)).
Defined.

(** ** Children *)

Lemma Children_length (t : prefixTree) (n : nodeData) (st st' : collection)
    (l : list nodeData) :
  Children t n st = Some (Ok l, st') -> length l = Z.to_nat (BitQuantum t).
Proof.
  unfold Children. intros H.
  apply bind_Ok_inv in H as (k & s1 & _ & H).
  unfold for_lt in H.
  apply (for_range_inv (fun k a _ => length a = k)) in H; [done|done|].
  intros j a s a' s' _ Hlen Hbody.
  apply bind_Ok_inv in Hbody as (ck & s2 & _ & Hbody).
  apply bind_Ok_inv in Hbody as ([e|child] & s3 & _ & Hbody); [done|].
  injection Hbody as <- _. rewrite length_app. simpl. lia.
Qed.

(** [Children] does not look at [childKeys]: a leaf and an internal node
    are treated alike. *)
Lemma Children_ignores_childKeys (t : prefixTree) (n : nodeData) (ck : list Z) :
  Children t n
  = Children t (mkNodeData (key n) (numElements n) (svalues n) (elements n) ck).
Proof. reflexivity. Qed.

(** C1, what the code does instead. The loop of [Children] runs
    [bitQuantum] times, not [2^bitQuantum] times, and there is no test for
    a leaf: whenever [Children] returns, for a leaf or not, it returns
    [bitQuantum] nodes, which is fewer than [2^bitQuantum], and not the
    empty list when [bitQuantum] is positive. *)
Theorem Children_returns_bitQuantum_nodes (t : prefixTree) (n : nodeData)
    (st st' : collection) (l : list nodeData) :
  Children t n st = Some (Ok l, st') ->
  length l = Z.to_nat (BitQuantum t) /\
  (0 <= BitQuantum t -> Z.of_nat (length l) < 2 ^ BitQuantum t) /\
  (0 < BitQuantum t -> l <> []).
Proof.
  intros H. apply Children_length in H. split; [done|]. split.
  - intros Hq. rewrite H, Z2Nat.id by done. by apply Z.pow_gt_lin_r.
  - intros Hq ->. simpl in H. lia.
Qed.

Lemma Children_returns_bitQuantum_nodes_witness :
  IsLeaf example_node = true /\
  Children example_tree example_node example_children
  = Some (Ok example_children, example_children) /\
  length example_children = 2%nat /\
  2 ^ BitQuantum example_tree = 4.
Proof.
  split; [reflexivity|].
  assert (E : Children example_tree example_node example_children
              = Some (Ok example_children, example_children))
    by (vm_compute; reflexivity).
  split; [exact E|].
  split; [|reflexivity].
  exact (proj1 (Children_returns_bitQuantum_nodes example_tree example_node
                  example_children example_children example_children E)).
Defined.

(** ** Readers look at a prefix of the buffer *)

Lemma ReadInt_app (b rest b1 : list byte) (n : Z) :
  ReadInt b = inr (n, b1) -> ReadInt (b ++ rest) = inr (n, b1 ++ rest).
Proof.
  destruct b as [|b0 [|b1' [|b2 [|b3 tl]]]]; try done.
  simpl. by intros [= <- <-].
Qed.

Lemma ReadFull_app (k : nat) (b rest b1 x : list byte) :
  ReadFull k b = inr (x, b1) -> ReadFull k (b ++ rest) = inr (x, b1 ++ rest).
Proof.
  unfold ReadFull. rewrite length_app.
  destruct (Nat.ltb_spec (length b) k); [done|].
  destruct (Nat.ltb_spec (length b + length rest) k); [lia|].
  intros [= <- <-]. by rewrite take_app_le, drop_app_le.
Qed.

Lemma ReadZp_app (p : Z) (b rest b1 : list byte) (z : Zp) :
  ReadZp p b = inr (z, b1) -> ReadZp p (b ++ rest) = inr (z, b1 ++ rest).
Proof.
  unfold ReadZp, mbind, result_bind.
  destruct (ReadFull _ b) as [e|[x b2]] eqn:E; [done|].
  rewrite (ReadFull_app _ _ rest _ _ E). by intros [= <- <-].
Qed.

Lemma ReadZps_app (p : Z) (count : nat) (b rest b1 : list byte) (zs : list Zp) :
  ReadZps p count b = inr (zs, b1) ->
  ReadZps p count (b ++ rest) = inr (zs, b1 ++ rest).
Proof.
  revert b zs b1. induction count as [|c IH]; intros b zs b1; simpl.
  - by intros [= <- <-].
  - unfold mbind, result_bind.
    destruct (ReadZp p b) as [e|[z b2]] eqn:E; [done|].
    rewrite (ReadZp_app _ _ rest _ _ E).
    destruct (ReadZps p c b2) as [e|[zs' b3]] eqn:E'; [done|].
    rewrite (IH _ _ _ E'). by intros [= <- <-].
Qed.

(** What follows a sequence in the buffer is not read. *)
Lemma ReadZZarray_app (p : Z) (b rest : list byte) (zs : list Zp) :
  ReadZZarray p b = inr zs -> ReadZZarray p (b ++ rest) = inr zs.
Proof.
  unfold ReadZZarray, mbind, result_bind.
  destruct (ReadInt b) as [e|[n b1]] eqn:E; [done|].
  rewrite (ReadInt_app _ rest _ _ E).
  destruct (ReadZps p _ b1) as [e|[zs' b2]] eqn:E'; [done|].
  by rewrite (ReadZps_app _ _ _ rest _ _ E').
Qed.

(** ** insert at a leaf *)

Lemma updateSvalues_fields (P_SKS : Z) (t : prefixTree) (n n1 : nodeData) (z : Zp)
    (marray : list Zp) :
  updateSvalues P_SKS t n z marray = Ok n1 ->
  key n1 = key n /\ numElements n1 = numElements n /\
  elements n1 = elements n /\ childKeys n1 = childKeys n.
Proof.
  unfold updateSvalues. destruct (negb _); [done|].
  destruct (ReadZZarray _ _); [done|].
  intros H. apply outcome_bind_Ok_inv in H as (svs' & _ & [= <-]). done.
Qed.

(** C2, what the code does instead. A leaf whose payload is not longer
    than the threshold does not split and [insert] stops at it, but the
    new payload is the old bytes followed by the sequence with [z]
    appended, because the output buffer is [bytes.NewBuffer(n.elements)].
    Read back, the payload still gives the elements it gave before: [z]
    is not among what [Elements] returns. *)
Theorem insert_leaf_keeps_decoded_elements (P_SKS : Z) (fuel : nat)
    (t : prefixTree) (n : nodeData) (z : Zp) (marray : list Zp) (bs : Bitstring)
    (depth : Z) (st st' : collection) (path : list visit) :
  IsLeaf n = true ->
  Z.of_nat (length (elements n)) <= SplitThreshold t ->
  insert P_SKS fuel t n z marray bs depth st = Some (Ok (path, None), st') ->
  exists n' l,
    path = [mkVisit n n'] /\ st' = st /\
    Elements P_SKS n = Ok l /\
    elements n' = elements n ++ WriteZZarray P_SKS (l ++ [z]) /\
    Elements P_SKS n' = Ok l /\
    Elements P_SKS n' <> Ok (l ++ [z]).
Proof.
  intros Hleaf Hlen H.
  destruct fuel as [|fuel]; [done|]. simpl in H.
  apply bind_Ok_inv in H as (n1 & s1 & Hu & H).
  apply lift_Ok_inv in Hu as [Hu ->].
  apply updateSvalues_fields in Hu as (Hk & Hn & He & Hc).
  assert (Hleaf1 : IsLeaf (incr_numElements n1) = true)
    by (unfold IsLeaf in *; simpl; by rewrite Hc).
  rewrite Hleaf1 in H.
  assert (Hlen1 : (Z.of_nat (length (elements n1)) >? SplitThreshold t) = false)
    by (rewrite He; lia).
  rewrite Hlen1 in H.
  unfold append_element in H. simpl in H. rewrite He in H.
  destruct (ReadZZarray P_SKS (elements n)) as [e|l] eqn:Hr; [done|].
  injection H as <- <-.
  eexists _, l. split; [reflexivity|]. split; [done|].
  assert (Hn' : Elements P_SKS
                  (set_elements (incr_numElements n1)
                     (elements n ++ WriteZZarray P_SKS (l ++ [z]))) = Ok l).
  { unfold Elements. simpl. by rewrite (ReadZZarray_app _ _ _ _ Hr). }
  split; [unfold Elements; by rewrite Hr|].
  split; [done|]. split; [done|].
  rewrite Hn'. intros [= Hl]. apply (f_equal length) in Hl.
  rewrite length_app in Hl. simpl in Hl. lia.
Qed.

Lemma insert_leaf_keeps_decoded_elements_witness :
  exists n',
    insert 97 1 example_tree example_root (mkZp 5 97)
      [mkZp 92 97; mkZp 91 97; mkZp 93 97] (mkBitstring [byte_of_Z 4] 7) 0
      [example_root]
    = Some (Ok ([mkVisit example_root n'], None), [example_root]) /\
    Elements 97 example_root = Ok [] /\
    Elements 97 n' = Ok [].
Proof.
  destruct (insert 97 1 example_tree example_root (mkZp 5 97)
              [mkZp 92 97; mkZp 91 97; mkZp 93 97] (mkBitstring [byte_of_Z 4] 7) 0
              [example_root]) as [[[[path [e|]]|msg] st']|] eqn:E;
    try (vm_compute in E; discriminate).
  destruct (insert_leaf_keeps_decoded_elements 97 1 example_tree example_root
              (mkZp 5 97) [mkZp 92 97; mkZp 91 97; mkZp 93 97]
              (mkBitstring [byte_of_Z 4] 7) 0 [example_root] st' path)
    as (n' & l & -> & -> & Hl & _ & Hl' & _);
    [reflexivity | vm_compute; discriminate | exact E |].
  exists n'. split; [reflexivity|].
  assert (l = []) as -> by (vm_compute in Hl; congruence).
  split; [exact Hl | exact Hl'].
Defined.

(** ** Bytes and big integers *)

Lemma byte_to_Z_range (b : byte) : 0 <= byte_to_Z b < 256.
Proof. unfold byte_to_Z. pose proof (Byte.to_N_bounded b). lia. Qed.

Lemma byte_to_of_Z (z : Z) : byte_to_Z (byte_of_Z z) = z mod 256.
Proof.
  unfold byte_to_Z, byte_of_Z.
  assert (0 <= z mod 256 < 256) by (apply Z.mod_pos_bound; lia).
  destruct (Byte.of_N _) eqn:E.
  - apply Byte.to_of_N in E. rewrite E. lia.
  - apply Byte.of_N_None_iff in E. lia.
Qed.


Lemma SetBytes_fold_acc (l : list byte) (a : Z) :
  fold_left (fun acc b => acc * 256 + byte_to_Z b) l a
  = a * 256 ^ Z.of_nat (length l) + big_SetBytes l.
Proof.
  unfold big_SetBytes. revert a.
  induction l as [|b l IH]; intros a; simpl fold_left.
  - simpl. lia.
  - rewrite IH, (IH (0 * 256 + byte_to_Z b)).
    rewrite length_cons, Nat2Z.inj_succ, Z.pow_succ_r by lia. lia.
Qed.

Lemma big_SetBytes_cons (b : byte) (l : list byte) :
  big_SetBytes (b :: l) = byte_to_Z b * 256 ^ Z.of_nat (length l) + big_SetBytes l.
Proof.
  unfold big_SetBytes at 1. simpl fold_left. by rewrite SetBytes_fold_acc.
Qed.

Lemma big_SetBytes_range (l : list byte) :
  0 <= big_SetBytes l < 256 ^ Z.of_nat (length l).
Proof.
  induction l as [|b l IH]; [by compute|].
  rewrite big_SetBytes_cons, length_cons, Nat2Z.inj_succ, Z.pow_succ_r by lia.
  pose proof (byte_to_Z_range b). nia.
Qed.

Lemma big_SetBytes_zeros (k : nat) (l : list byte) :
  big_SetBytes (replicate k x00 ++ l) = big_SetBytes l.
Proof.
  induction k as [|k IH]; [done|].
  simpl. rewrite big_SetBytes_cons, IH. by compute.
Qed.

Lemma be_bytes_value (fuel : nat) (x : Z) (acc : list byte) :
  0 <= x < 2 ^ Z.of_nat fuel ->
  big_SetBytes (be_bytes fuel x acc)
  = x * 256 ^ Z.of_nat (length acc) + big_SetBytes acc.
Proof.
  revert x acc. induction fuel as [|fuel IH]; intros x acc Hx.
  - simpl in *. assert (x = 0) as -> by lia. lia.
  - simpl be_bytes. destruct (Z.eqb_spec x 0) as [->|Hne]; [lia|].
    rewrite Nat2Z.inj_succ, Z.pow_succ_r in Hx by lia.
    rewrite IH.
    + rewrite big_SetBytes_cons, byte_to_of_Z, length_cons, Nat2Z.inj_succ,
        Z.pow_succ_r by lia.
      pose proof (Z.div_mod x 256 ltac:(lia)). nia.
    + split; [apply Z.div_pos; lia|].
      apply Z.div_lt_upper_bound; lia.
Qed.

Lemma big_SetBytes_Bytes (x : Z) : big_SetBytes (big_Bytes x) = Z.abs x.
Proof.
  unfold big_Bytes. rewrite be_bytes_value.
  { change (big_SetBytes []) with 0. change (Z.of_nat (length [])) with 0.
    rewrite Z.pow_0_r. lia. }
  split; [lia|].
  rewrite Nat2Z.inj_succ, Z2Nat.id by apply Z.log2_nonneg.
  destruct (Z.eq_dec (Z.abs x) 0) as [->|Hne]; [by compute|].
  apply Z.log2_spec. lia.
Qed.

Lemma be_bytes_length (fuel : nat) (x : Z) (acc : list byte) (k : nat) :
  0 <= x < 256 ^ Z.of_nat k ->
  (length (be_bytes fuel x acc) <= k + length acc)%nat.
Proof.
  revert x acc k. induction fuel as [|fuel IH]; intros x acc k Hx; simpl.
  - lia.
  - destruct (Z.eqb_spec x 0) as [->|Hne]; [lia|].
    destruct k as [|k]; [simpl in Hx; lia|].
    rewrite Nat2Z.inj_succ, Z.pow_succ_r in Hx by lia.
    etrans; [apply (IH _ _ k)|simpl; lia].
    split; [apply Z.div_pos; lia|].
    apply Z.div_lt_upper_bound; lia.
Qed.

Lemma big_Bytes_length (x : Z) (k : nat) :
  0 <= x < 256 ^ Z.of_nat k -> (length (big_Bytes x) <= k)%nat.
Proof.
  intros Hx. unfold big_Bytes. rewrite Z.abs_eq by lia.
  etrans; [by apply be_bytes_length|simpl; lia].
Qed.

Lemma abs_lt_ZpNbytes (p : Z) : Z.abs p < 256 ^ Z.of_nat (ZpNbytes p).
Proof.
  unfold ZpNbytes. rewrite <- big_SetBytes_Bytes. apply big_SetBytes_range.
Qed.

(** ** Writing, then reading *)

Lemma ReadInt_range (b b1 : list byte) (n : Z) :
  ReadInt b = inr (n, b1) -> 0 <= n < 2 ^ 32.
Proof.
  destruct b as [|b0 [|b1' [|b2 [|b3 tl]]]]; try done.
  intros [= <- _]. apply (big_SetBytes_range [b0; b1'; b2; b3]).
Qed.

Lemma ReadInt_WriteInt (n : Z) (rest : list byte) :
  0 <= n < 2 ^ 32 -> ReadInt (WriteInt n ++ rest) = inr (n, rest).
Proof.
  intros Hn. unfold WriteInt. simpl. f_equal. f_equal.
  unfold big_SetBytes. simpl. rewrite !byte_to_of_Z.
  change (2 ^ 24) with 16777216. change (2 ^ 16) with 65536.
  change (2 ^ 8) with 256. change (2 ^ 32) with 4294967296 in Hn.
  Z.div_mod_to_equations. lia.
Qed.

Lemma WriteZp_length (p : Z) (z : Zp) :
  wf_zp p z -> length (WriteZp p z) = ZpNbytes p.
Proof.
  intros [_ Hz]. unfold WriteZp.
  pose proof (big_Bytes_length _ _ Hz).
  rewrite length_app, length_replicate. lia.
Qed.

Lemma ReadZp_WriteZp (p : Z) (z : Zp) (rest : list byte) :
  wf_zp p z -> ReadZp p (WriteZp p z ++ rest) = inr (z, rest).
Proof.
  intros Hz. pose proof (WriteZp_length _ _ Hz) as Hlen. destruct Hz as [HP Hz].
  unfold ReadZp, ReadFull. rewrite length_app, Hlen.
  destruct (Nat.ltb_spec (ZpNbytes p + length rest) (ZpNbytes p)); [lia|].
  simpl. rewrite <- Hlen at 1. rewrite take_app_length.
  rewrite <- Hlen at 1. rewrite drop_app_length.
  unfold WriteZp. rewrite big_SetBytes_zeros, big_SetBytes_Bytes.
  rewrite Z.abs_eq by lia. destruct z. simpl in *. by subst.
Qed.

Lemma ReadZps_WriteZps (p : Z) (l : list Zp) (rest : list byte) :
  Forall (wf_zp p) l ->
  ReadZps p (length l) (WriteZps p l ++ rest) = inr (l, rest).
Proof.
  induction 1 as [|z l Hz _ IH]; [done|].
  simpl. rewrite <- app_assoc, (ReadZp_WriteZp _ _ _ Hz). simpl.
  by rewrite IH.
Qed.

Lemma ReadZZarray_WriteZZarray (p : Z) (l : list Zp) :
  Forall (wf_zp p) l -> Z.of_nat (length l) < 2 ^ 32 ->
  ReadZZarray p (WriteZZarray p l) = inr l.
Proof.
  intros Hl Hlen. unfold ReadZZarray, WriteZZarray.
  rewrite ReadInt_WriteInt by lia. simpl. rewrite Nat2Z.id.
  rewrite <- (app_nil_r (WriteZps p l)).
  by rewrite (ReadZps_WriteZps _ _ [] Hl).
Qed.

Lemma ReadZp_wf (p : Z) (b b1 : list byte) (z : Zp) :
  ReadZp p b = inr (z, b1) -> wf_zp p z.
Proof.
  unfold ReadZp, ReadFull.
  destruct (Nat.ltb_spec (length b) (ZpNbytes p)); [done|].
  simpl. intros [= <- _]. split; [done|]. simpl.
  pose proof (big_SetBytes_range (take (ZpNbytes p) b)) as Hr.
  by rewrite length_take, Nat.min_l in Hr by lia.
Qed.

Lemma ReadZps_wf (p : Z) (count : nat) (b b1 : list byte) (zs : list Zp) :
  ReadZps p count b = inr (zs, b1) -> Forall (wf_zp p) zs /\ length zs = count.
Proof.
  revert b zs b1. induction count as [|c IH]; intros b zs b1; simpl.
  - by intros [= <- _].
  - unfold mbind, result_bind.
    destruct (ReadZp p b) as [e|[z b2]] eqn:E; [done|].
    destruct (ReadZps p c b2) as [e|[zs' b3]] eqn:E'; [done|].
    intros [= <- _]. apply IH in E' as [Hall <-]. apply ReadZp_wf in E.
    split; [by constructor | done].
Qed.

Lemma ReadZZarray_wf (p : Z) (b : list byte) (zs : list Zp) :
  ReadZZarray p b = inr zs ->
  Forall (wf_zp p) zs /\ Z.of_nat (length zs) < 2 ^ 32.
Proof.
  unfold ReadZZarray, mbind, result_bind.
  destruct (ReadInt b) as [e|[n b1]] eqn:E; [done|].
  destruct (ReadZps p _ b1) as [e|[zs' b2]] eqn:E'; [done|].
  intros [= <-]. apply ReadZps_wf in E' as [Hall Hlen].
  apply ReadInt_range in E. split; [done|]. lia.
Qed.

(** ** split *)

Lemma split_with_result (P_SKS : Z) child_insert (t : prefixTree) (n n' : nodeData)
    (depth : Z) (st st' : collection) :
  split_with P_SKS child_insert t n depth st = Some (Ok n', st') ->
  n' = set_elements n [].
Proof.
  unfold split_with. intros H.
  apply bind_Ok_inv in H as (u & s1 & _ & H).
  destruct (ReadZZarray _ _); [done|].
  apply bind_Ok_inv in H as (u' & s2 & _ & H). by injection H as <- _.
Qed.

Lemma split_leaves_node_a_leaf_aux (P_SKS : Z) (fuel : nat) (t : prefixTree)
    (n n' : nodeData) (depth : Z) (st st' : collection) :
  split P_SKS fuel t n depth st = Some (Ok n', st') -> n' = set_elements n [].
Proof. apply split_with_result. Qed.

(** Without the children in the collection the re-insertion of the first
    element stops in [Children]. *)
Lemma split_panics_without_children :
  split 97 2 example_tree example_full_node 1 [example_full_node]
  = Some (Panic "Children failed on child", [example_full_node]).
Proof. vm_compute. reflexivity. Qed.

(** C3, what the code does instead. [split] drops the children that
    [newChildNode] makes and never assigns [childKeys]: when it returns,
    the receiver has lost its payload and is otherwise what it was, a leaf
    if it was one, and the collection has no new document. *)
Theorem split_leaves_node_a_leaf (P_SKS : Z) (fuel : nat) (t : prefixTree)
    (n n' : nodeData) (depth : Z) (st st' : collection) :
  split P_SKS fuel t n depth st = Some (Ok n', st') ->
  n' = set_elements n [] /\
  childKeys n' = childKeys n /\
  IsLeaf n' = IsLeaf n /\
  st' = st.
Proof.
  intros H. pose proof H as Hro. unfold split in H, Hro.
  apply split_with_result in H as ->.
  apply read_only_split_with in Hro; [|intros; apply read_only_insert].
  done.
Qed.

Lemma split_leaves_node_a_leaf_witness :
  exists n',
    split 97 2 example_tree example_full_node 1 example_children
    = Some (Ok n', example_children) /\
    IsLeaf n' = true /\ elements n' = [].
Proof.
  destruct (split 97 2 example_tree example_full_node 1 example_children)
    as [[[n'|msg] st']|] eqn:E; try (vm_compute in E; discriminate).
  destruct (split_leaves_node_a_leaf 97 2 example_tree example_full_node n' 1
              example_children st' E) as (-> & _ & Hl & ->).
  eexists. split; [reflexivity|]. split; [exact Hl | reflexivity].
Defined.

(** ** numElements *)

Lemma wrap_int_id (z : Z) : - 2 ^ 63 <= z <= max_int -> wrap_int z = z.
Proof.
  unfold wrap_int, max_int. intros H.
  rewrite Z.mod_small by lia. lia.
Qed.

Lemma newChildNode_numElements (t : prefixTree) (parent child : nodeData) (i : Z) :
  newChildNode t parent i = Ok child -> numElements child = 0.
Proof.
  unfold newChildNode. intros H.
  apply outcome_bind_Ok_inv in H as (k & _ & H).
  apply outcome_bind_Ok_inv in H as (ck & _ & H).
  apply outcome_bind_Ok_inv in H as (ck' & _ & H).
  by injection H as <-.
Qed.

(** Every call of [insert] that returns, with an error or without, has
    added one to the count of each node object on its path, split or not. *)
Lemma insert_increments (P_SKS : Z) (fuel : nat) (t : prefixTree) (n : nodeData)
    (z : Zp) (marray : list Zp) (bs : Bitstring) (depth : Z) (st st' : collection)
    (path : list visit) (err : option error) :
  insert P_SKS fuel t n z marray bs depth st = Some (Ok (path, err), st') ->
  (exists n' rest, path = mkVisit n n' :: rest) /\
  Forall (fun v => numElements (after v) = wrap_int (numElements (before v) + 1) /\
                   key (after v) = key (before v) /\
                   childKeys (after v) = childKeys (before v)) path.
Proof.
  revert n z marray bs depth st st' path err.
  induction fuel as [|fuel IH]; intros n z marray bs depth st st' path err H;
    [done|].
  simpl in H.
  apply bind_Ok_inv in H as (n1 & s1 & Hu & H).
  apply lift_Ok_inv in Hu as [Hu ->].
  apply updateSvalues_fields in Hu as (Hk & Hn & He & Hc).
  assert (Hd : forall n3 s,
    numElements n3 = wrap_int (numElements n + 1) -> key n3 = key n ->
    childKeys n3 = childKeys n ->
    (child ← NextChild t n3 bs depth;
     '(path, err) ← insert P_SKS fuel t child z marray bs (depth + 1);
     mret (mkVisit n n3 :: path, err)) s = Some (Ok (path, err), st') ->
    (exists n' rest, path = mkVisit n n' :: rest) /\
    Forall (fun v => numElements (after v) = wrap_int (numElements (before v) + 1) /\
                     key (after v) = key (before v) /\
                     childKeys (after v) = childKeys (before v)) path).
  { intros n3 s Hn3 Hk3 Hc3 Hrun.
    apply bind_Ok_inv in Hrun as (child & s2 & _ & Hrun).
    apply bind_Ok_inv in Hrun as ([p e] & s3 & Hins & Hrun).
    injection Hrun as <- <- <-.
    apply IH in Hins as [_ Hall].
    split; [eauto|]. by constructor. }
  destruct (IsLeaf _).
  - destruct (_ >? _).
    + apply bind_Ok_inv in H as (n3 & s2 & Hs & H).
      apply split_with_result in Hs as ->.
      apply (Hd _ _) in H; simpl; [done|by rewrite Hn|done|done].
    + unfold append_element in H.
      destruct (ReadZZarray _ _); injection H as <- <- <-;
        (split; [eauto|]); repeat constructor; simpl; by rewrite ?Hn.
  - apply (Hd _ _) in H; simpl; [done|by rewrite Hn|done|done].
Qed.


(** ** Sample values *)

Lemma Norm_Ok (zp r : Zp) :
  Norm zp = Ok r -> P zp <> 0 /\ r = mkZp (Int zp mod Z.abs (P zp)) (P zp).
Proof.
  unfold Norm, big_Mod. destruct (Z.eqb_spec (P zp) 0); [done|].
  simpl. by intros [= <-].
Qed.

Lemma Mul_Ok (zp x y r : Zp) :
  Mul zp x y = Ok r ->
  P x = P zp /\ P y = P zp /\ P zp <> 0 /\
  r = mkZp ((Int x * Int y) mod Z.abs (P zp)) (P zp).
Proof.
  unfold Mul. intros H. apply outcome_bind_Ok_inv in H as ([] & HA & H).
  apply assertP_Ok in HA. apply Forall_cons in HA as [Hx HA].
  apply Forall_cons in HA as [Hy _]. apply Norm_Ok in H as [Hp ->]. done.
Qed.


Lemma Mul_wf (p : Z) (z sv m r : Zp) :
  wf_zp p sv -> Mul (Z_ (P z)) sv m = Ok r -> wf_zp p r.
Proof.
  intros [Hsv _] H. apply Mul_Ok in H as (Hx & _ & Hp & ->). simpl in *.
  split; simpl; [congruence|].
  pose proof (Z.mod_pos_bound (Int sv * Int m) (Z.abs (P z)) ltac:(lia)).
  pose proof (abs_lt_ZpNbytes p). rewrite <- Hx, Hsv in *. lia.
Qed.

(** The loop of [updateSvalues]: entry [j] becomes the product for every
    [j] the delta vector has, the length stays, and so does the
    well-formedness. *)
Lemma mul_svalues_spec (z : Zp) (marray svs svs' : list Zp) :
  mul_svalues z marray svs = Ok svs' ->
  length svs' = length svs /\
  (forall (j : nat) m, marray !! j = Some m ->
     exists sv r, svs !! j = Some sv /\ Mul (Z_ (P z)) sv m = Ok r /\
                  svs' !! j = Some r) /\
  (forall p, Forall (wf_zp p) svs -> Forall (wf_zp p) svs').
Proof.
  unfold mul_svalues, for_lt. rewrite Nat2Z.id. intros H.
  pose (Inv := fun (k : nat) (a : list Zp) =>
    length a = length svs /\
    (forall (j : nat) m, (j < k)%nat -> marray !! j = Some m ->
       exists sv r, svs !! j = Some sv /\ Mul (Z_ (P z)) sv m = Ok r /\
                    a !! j = Some r) /\
    (forall j : nat, (k <= j)%nat -> a !! j = svs !! j) /\
    (forall p, Forall (wf_zp p) svs -> Forall (wf_zp p) a)).
  apply (outcome_for_range_inv Inv) in H.
  - destruct H as (Hlen & Hdone & _ & Hwf). split; [done|]. split; [|done].
    intros j m Hm. apply (Hdone j m); [|done]. by apply lookup_lt_Some in Hm.
  - unfold Inv. split; [done|]. split; [intros; lia|]. done.
  - clear H. intros k a a' Hk (Hlen & Hdone & Hrest & Hwf) Hbody.
    rewrite Z.add_0_l, Nat2Z.id in Hbody.
    destruct (a !! k) as [sv|] eqn:Ea; [|done].
    destruct (marray !! k) as [m|] eqn:Em; [|done].
    apply outcome_bind_Ok_inv in Hbody as (r & Hmul & [= <-]).
    assert (Hka : (k < length a)%nat) by by apply lookup_lt_Some in Ea.
    unfold Inv. split; [by rewrite length_insert|]. split; [|split].
    + intros j m' Hj Hm'. destruct (decide (j = k)) as [->|Hne].
      * exists sv, r. rewrite <- (Hrest k) by lia.
        rewrite list_lookup_insert_eq by done. naive_solver.
      * rewrite list_lookup_insert_ne by done. apply Hdone; [lia|done].
    + intros j Hj. rewrite list_lookup_insert_ne by lia. apply Hrest. lia.
    + intros p Hp. specialize (Hwf p Hp). apply Forall_insert; [done|].
      eapply Mul_wf; [|done]. exact (Forall_lookup_1 _ _ _ _ Hwf Ea).
Qed.



Lemma updateSvalues_spec (P_SKS : Z) (t : prefixTree) (n n1 : nodeData) (z : Zp)
    (marray : list Zp) :
  updateSvalues P_SKS t n z marray = Ok n1 ->
  exists svs svs',
    ReadZZarray P_SKS (svalues n) = inr svs /\
    mul_svalues z marray svs = Ok svs' /\
    svalues n1 = WriteZZarray P_SKS svs'.
Proof.
  unfold updateSvalues. destruct (negb _); [done|].
  destruct (ReadZZarray _ _) as [e|svs]; [done|].
  intros H. apply outcome_bind_Ok_inv in H as (svs' & Hm & [= <-]).
  by exists svs, svs'.
Qed.



(** A path of two nodes: the first splits, finds a child in the
    collection and hands the element down with the same delta vector. *)
Lemma insert_sketch_two_levels :
  exists v1 v2,
    insert 97 3 example_tree example_full_node (mkZp 9 97)
      [mkZp 88 97; mkZp 87 97; mkZp 89 97] (mkBitstring [byte_of_Z 8] 7) 1
      example_children
    = Some (Ok ([v1; v2], None), example_children) /\
    AddElementArray example_tree (mkZp 9 97)
    = Ok [mkZp 88 97; mkZp 87 97; mkZp 89 97] /\
    SValues 97 (after v1) = Ok [mkZp 88 97; mkZp 87 97; mkZp 89 97] /\
    SValues 97 (after v2) = Ok [mkZp 88 97; mkZp 87 97; mkZp 89 97].
Proof. eexists _, _. repeat split; vm_compute; reflexivity. Qed.




(** ** Insert does not run out of fuel *)

Lemma total_find_one (k : list byte) : total (find_one k).
Proof.
  intros st. unfold find_one, mbind, M_bind, get_state.
  destruct (find _ st); by eexists.
Qed.

Lemma total_Children (t : prefixTree) (n : nodeData) : total (Children t n).
Proof.
  unfold Children. apply total_bind; [apply total_lift|]. intros k.
  apply total_for_range. intros i result.
  apply total_bind; [apply total_lift|]. intros childKey.
  apply total_bind; [apply total_find_one|].
  intros [e|child]; [apply total_panic | apply total_ret].
Qed.

Lemma total_NextChild (t : prefixTree) (n : nodeData) (bs : Bitstring) (depth : Z) :
  total (NextChild t n bs depth).
Proof.
  unfold NextChild. apply total_bind; [apply total_Children|]. intros children.
  apply total_bind; [apply total_lift|]. intros idx.
  destruct (children !! _); [apply total_ret | apply total_panic].
Qed.

Lemma total_Parent (t : prefixTree) (n : nodeData) : total (Parent t n).
Proof.
  unfold Parent. destruct (_ =? 0); [apply total_ret|].
  apply total_bind; [apply total_lift|]. intros parentKey.
  apply total_bind; [apply total_find_one|].
  intros [e|parent]; [apply total_panic | apply total_ret].
Qed.

Lemma Get_Ok_bound (bs : Bitstring) (bit b : Z) :
  Get bs bit = Ok b -> 0 <= bit < 8 * Z.of_nat (length (buf bs)).
Proof.
  unfold Get. destruct (Z.ltb_spec bit 0); [done|].
  destruct (buf bs !! _) eqn:E; [|done]. intros _.
  apply lookup_lt_Some in E.
  assert (bit / 8 < Z.of_nat (length (buf bs))) by lia.
  split; [done|]. Z.div_mod_to_equations. lia.
Qed.

(** [NextChild] returns only while the key has bits left at this depth. *)
Lemma NextChild_depth_bound (t : prefixTree) (n child : nodeData) (bs : Bitstring)
    (depth : Z) (st st' : collection) :
  NextChild t n bs depth st = Some (Ok child, st') ->
  0 <= depth < 8 * Z.of_nat (length (buf bs)).
Proof.
  unfold NextChild. intros H.
  apply bind_Ok_inv in H as (children & s1 & Hc & H).
  apply bind_Ok_inv in H as (idx & s2 & Hi & H).
  apply lift_Ok_inv in Hi as [Hi ->].
  apply Children_length in Hc.
  destruct (children !! _) as [c|] eqn:E; [|done].
  apply lookup_lt_Some in E.
  unfold child_index, for_lt in Hi.
  destruct (Z.to_nat (BitQuantum t)) as [|c'] eqn:Eq; [lia|].
  simpl in Hi. apply outcome_bind_Ok_inv in Hi as (a & Hb & _).
  apply outcome_bind_Ok_inv in Hb as (b & Hg & _).
  apply Get_Ok_bound in Hg. nia.
Qed.

Lemma copy_padded_length (n : nat) (src : list byte) :
  length (copy_padded n src) = n.
Proof.
  unfold copy_padded. rewrite length_take, length_app, length_replicate. lia.
Qed.

Lemma clear_tail_length (b : list byte) (n : Z) :
  length (clear_tail b n) = length b.
Proof.
  unfold clear_tail. destruct (_ =? 0); [done|].
  destruct (b !! _); [by rewrite length_insert | done].
Qed.

Lemma SetBytes_length (bs : Bitstring) (src : list byte) :
  length (buf (SetBytes bs src)) = length (buf bs).
Proof. simpl. by rewrite clear_tail_length, copy_padded_length. Qed.

Lemma element_key_length (P_SKS : Z) (z : Zp) (bs : Bitstring) :
  element_key P_SKS z = Ok bs ->
  length (buf bs) = Z.to_nat ((big_BitLen P_SKS + 7) / 8).
Proof.
  unfold element_key, NewBitstring. destruct (_ <? 0); [done|].
  simpl. intros [= <-]. by rewrite SetBytes_length; simpl; rewrite length_replicate.
Qed.

Lemma total_split_with (P_SKS : Z) child_insert (t : prefixTree) (n : nodeData)
    (depth : Z) :
  (forall child z marray bs s,
     length (buf bs) = Z.to_nat ((big_BitLen P_SKS + 7) / 8) ->
     0 <= depth < 8 * Z.of_nat (length (buf bs)) ->
     is_Some (child_insert child z marray bs (depth + 1) s)) ->
  total (split_with P_SKS child_insert t n depth).
Proof.
  intros Hc. unfold split_with.
  apply total_bind.
  { apply total_for_range. intros i u.
    apply total_bind; [apply total_lift | intros; apply total_ret]. }
  intros _. destruct (ReadZZarray _ _) as [e|elems]; [apply total_panic|].
  apply total_bind; [|intros; apply total_ret].
  apply total_for_each. intros element u s.
  apply is_Some_bind; [apply total_lift|]. intros bs s1 Hbs.
  apply lift_Ok_inv in Hbs as [Hbs ->]. apply element_key_length in Hbs.
  apply is_Some_bind; [apply total_NextChild|]. intros child s2 Hn.
  apply NextChild_depth_bound in Hn.
  apply is_Some_bind; [apply total_lift|]. intros marray s3 _.
  apply is_Some_bind; [by apply Hc | intros; apply total_ret].
Qed.

Lemma insert_fuel_enough (P_SKS : Z) (fuel : nat) (t : prefixTree) (n : nodeData)
    (z : Zp) (marray : list Zp) (bs : Bitstring) (depth : Z) (st : collection) :
  length (buf bs) = Z.to_nat ((big_BitLen P_SKS + 7) / 8) ->
  (0 < fuel)%nat ->
  8 * Z.of_nat (length (buf bs)) - depth < Z.of_nat fuel ->
  is_Some (insert P_SKS fuel t n z marray bs depth st).
Proof.
  revert n z marray bs depth st.
  induction fuel as [|fuel IH]; intros n z marray bs depth st Hlen Hpos Hfuel;
    [lia|].
  simpl.
  apply is_Some_bind; [apply total_lift|]. intros n1 s1 _.
  assert (Hd : forall n3 s,
    is_Some ((child ← NextChild t n3 bs depth;
              '(path, err) ← insert P_SKS fuel t child z marray bs (depth + 1);
              mret (mkVisit n n3 :: path, err)) s)).
  { intros n3 s. apply is_Some_bind; [apply total_NextChild|].
    intros child s2 Hn. apply NextChild_depth_bound in Hn.
    apply is_Some_bind; [apply IH; [done|lia|lia]|].
    intros [path err] s3 _. apply total_ret. }
  destruct (IsLeaf _); [|apply Hd].
  destruct (_ >? _).
  - apply is_Some_bind; [|intros; apply Hd].
    apply total_split_with. intros child z' marray' bs' s Hlen' Hdepth.
    apply IH; [done|lia|lia].
  - destruct (append_element _ _ _). apply total_ret.
Qed.

(** [Insert] gives its recursion enough fuel: on every collection it
    returns or panics. *)
Lemma total_Insert (P_SKS : Z) (t : prefixTree) (z : Zp) : total (Insert P_SKS t z).
Proof.
  intros st. unfold Insert.
  apply is_Some_bind; [apply total_lift|]. intros bs s1 Hbs.
  apply lift_Ok_inv in Hbs as [Hbs ->]. apply element_key_length in Hbs.
  apply is_Some_bind; [apply total_find_one|].
  intros [e|root] s2 _; [apply total_ret|].
  apply is_Some_bind; [apply total_lift|]. intros marray s3 _.
  apply insert_fuel_enough; [done | unfold insert_fuel; lia | unfold insert_fuel; lia].
Qed.

(** ** Bits of a byte *)













(** ** Bits of a buffer *)


Lemma Set_Unset_put (v : bool) (bs : Bitstring) (q : Z) :
  (if v then Set_ bs q else Unset bs q) = update_bit bs q (byte_put v q).
Proof. by destruct v. Qed.




(** ** Buffers with the same bits in front *)







(** ** Buffers that end clean *)





(** ** Keys of children and parents *)

(** A loop whose body returns wherever the invariant holds returns, with
    the invariant. *)
Lemma outcome_for_range_total {A} (Inv : nat -> A -> Prop) (count : nat) (i : Z)
    (body : Z -> A -> outcome A) (acc : A) :
  Inv 0%nat acc ->
  (forall (k : nat) a, (k < count)%nat -> Inv k a ->
     exists a', body (i + Z.of_nat k) a = Ok a' /\ Inv (S k) a') ->
  exists r, for_range count i body acc = Ok r /\ Inv count r.
Proof.
  revert Inv i acc. induction count as [|c IH]; intros Inv i acc H0 Hstep; simpl.
  - by exists acc.
  - destruct (Hstep 0%nat acc ltac:(lia) H0) as (a & Ha & HI).
    rewrite Z.add_0_r in Ha. rewrite Ha. simpl.
    apply (IH (fun k => Inv (S k))); [done|].
    intros k a0 Hk HI0. destruct (Hstep (S k) a0 ltac:(lia) HI0) as (a' & Ha' & HI').
    exists a'. split; [|done].
    by replace (i + 1 + Z.of_nat k) with (i + Z.of_nat (S k)) by lia.
Qed.









(** The fetch itself goes by the bytes of the bit string, [Bytes], while
    the key of a node is the serialized bit string: with the parent in the
    collection under its own key, [Parent] on its child does not find it. *)
Lemma Parent_fetches_by_Bytes :
  exists child,
    newChildNode example_tree example_node 3 = Ok child /\
    Parent example_tree child [example_node]
    = Some (Panic "Failed to get parent", [example_node]).
Proof. eexists. split; vm_compute; reflexivity. Qed.


(** * Further properties *)

(** ** Field arithmetic: laws, errors, edges *)

Lemma Add_eq (r x y : Zp) :
  P r <> 0 -> P x = P r -> P y = P r ->
  Add r x y = Ok (mkZp ((Int x + Int y) mod Z.abs (P r)) (P r)).
Proof.
  intros Hp Hx Hy. unfold Add.
  rewrite assertP_same by (repeat constructor; done). simpl.
  unfold Norm, big_Mod. simpl. by destruct (Z.eqb_spec (P r) 0).
Qed.

Lemma Mul_eq (r x y : Zp) :
  P r <> 0 -> P x = P r -> P y = P r ->
  Mul r x y = Ok (mkZp ((Int x * Int y) mod Z.abs (P r)) (P r)).
Proof.
  intros Hp Hx Hy. unfold Mul.
  rewrite assertP_same by (repeat constructor; done). simpl.
  unfold Norm, big_Mod. simpl. by destruct (Z.eqb_spec (P r) 0).
Qed.

(** X1. Over one field with a modulus other than zero, [Add] and [Mul]
    are commutative and associative and [Mul] distributes over [Add],
    whatever the receiver held and whether or not the operands were
    normalized. *)
Theorem Zp_ring_laws (r x y z : Zp) :
  P r <> 0 -> P x = P r -> P y = P r -> P z = P r ->
  Add r x y = Add r y x /\
  Mul r x y = Mul r y x /\
  (exists s t, Add r x y = Ok s /\ Add r y z = Ok t /\ Add r s z = Add r x t) /\
  (exists s t, Mul r x y = Ok s /\ Mul r y z = Ok t /\ Mul r s z = Mul r x t) /\
  (exists s u v, Add r y z = Ok s /\ Mul r x y = Ok u /\ Mul r x z = Ok v /\
                 Mul r x s = Add r u v).
Proof.
  intros Hp Hx Hy Hz.
  assert (Hq : Z.abs (P r) <> 0) by lia.
  split; [|split; [|split; [|split]]].
  - rewrite !Add_eq by done. by rewrite Z.add_comm.
  - rewrite !Mul_eq by done. by rewrite Z.mul_comm.
  - eexists _, _. split; [by apply Add_eq|]. split; [by apply Add_eq|].
    rewrite !Add_eq by done. simpl.
    by rewrite Z.add_mod_idemp_l, Z.add_mod_idemp_r, Z.add_assoc by done.
  - eexists _, _. split; [by apply Mul_eq|]. split; [by apply Mul_eq|].
    rewrite !Mul_eq by done. simpl.
    by rewrite Z.mul_mod_idemp_l, Z.mul_mod_idemp_r, Z.mul_assoc by done.
  - eexists _, _, _. split; [by apply Add_eq|]. split; [by apply Mul_eq|].
    split; [by apply Mul_eq|].
    rewrite Mul_eq, Add_eq by done. simpl.
    rewrite Z.mul_mod_idemp_r by done.
    rewrite <- Z.add_mod by done. by rewrite Z.mul_add_distr_l.
Qed.

Lemma Zp_ring_laws_witness :
  Add (mkZp 0 7) (mkZp 5 7) (mkZp 4 7) = Add (mkZp 0 7) (mkZp 4 7) (mkZp 5 7) /\
  Mul (mkZp 3 7) (mkZp 5 7) (mkZp 4 7) = Mul (mkZp 3 7) (mkZp 4 7) (mkZp 5 7).
Proof.
  destruct (Zp_ring_laws (mkZp 0 7) (mkZp 5 7) (mkZp 4 7) (mkZp 6 7))
    as (HA & _); [simpl; lia | reflexivity | reflexivity | reflexivity |].
  destruct (Zp_ring_laws (mkZp 3 7) (mkZp 5 7) (mkZp 4 7) (mkZp 6 7))
    as (_ & HM & _); [simpl; lia | reflexivity | reflexivity | reflexivity |].
  exact (conj HA HM).
Defined.

Lemma assertP_mismatch (zp : Zp) (values : list Zp) :
  Exists (fun v => P v <> P zp) values ->
  assertP zp values = Panic "finite field mismatch".
Proof.
  induction values as [|v vs IH]; intros H; [by apply Exists_nil in H|].
  simpl. destruct (Z.eqb_spec (big_Cmp (P zp) (P v)) 0) as [E|E]; [|done].
  simpl. apply (proj1 (big_Cmp_eq _ _)) in E. apply Exists_cons in H as [H|H].
  - simpl in H. congruence.
  - by apply IH.
Qed.

(** X2. An operand of another field stops [Add], [Mul] and [Cmp] with the
    panic of [assertP], whatever the values are. *)
Theorem Zp_field_mismatch_panics (zp x y : Zp) :
  P x <> P zp \/ P y <> P zp ->
  Add zp x y = Panic "finite field mismatch" /\
  Mul zp x y = Panic "finite field mismatch" /\
  (P x <> P zp -> Cmp zp x = Panic "finite field mismatch").
Proof.
  intros H.
  assert (HA : assertP zp [x; y] = Panic "finite field mismatch").
  { apply assertP_mismatch. destruct H; [by left | right; by left]. }
  unfold Add, Mul, Cmp. rewrite HA. split; [done|]. split; [done|].
  intros Hx. rewrite assertP_mismatch; [done | by left].
Qed.

Lemma Zp_field_mismatch_panics_witness :
  Add (mkZp 0 7) (mkZp 5 7) (mkZp 4 11) = Panic "finite field mismatch".
Proof.
  destruct (Zp_field_mismatch_panics (mkZp 0 7) (mkZp 5 7) (mkZp 4 11))
    as (HA & _); [right; simpl; lia | exact HA].
Defined.

(** X3. [Norm] returns exactly when the modulus is not zero, and then the
    value is the residue in [0, |P|), congruent to what it was; with the
    modulus zero it panics, and so do [NewZp], [Add] and [Mul]. For a
    negative modulus the value is therefore not below [P]. *)
Theorem Norm_modulus_edges (zp x y : Zp) :
  (P zp = 0 ->
   Norm zp = Panic "division by zero" /\
   NewZp 0 (Int zp) = Panic "division by zero" /\
   (P x = P zp -> P y = P zp ->
    Add zp x y = Panic "division by zero" /\
    Mul zp x y = Panic "division by zero")) /\
  (P zp <> 0 ->
   exists r, Norm zp = Ok r /\ P r = P zp /\ 0 <= Int r < Z.abs (P zp) /\
             (Int r - Int zp) mod P zp = 0 /\
             (P zp < 0 -> ~ in_field r)).
Proof.
  split.
  - intros Hp. unfold NewZp, Norm, big_Mod. simpl. rewrite Hp. simpl.
    split; [done|]. split; [done|]. intros Hx Hy.
    unfold Add, Mul. rewrite assertP_same by (repeat constructor; congruence).
    simpl. unfold Norm, big_Mod. simpl. by rewrite Hp.
  - intros Hp. unfold Norm, big_Mod. destruct (Z.eqb_spec (P zp) 0); [done|].
    simpl. eexists. split; [done|]. simpl. split; [done|].
    assert (Hr : 0 <= Int zp mod Z.abs (P zp) < Z.abs (P zp))
      by (apply Z.mod_pos_bound; lia).
    split; [done|]. split.
    + destruct (Z.abs_spec (P zp)) as [[_ ->]|[_ ->]].
      * by rewrite Zminus_mod_idemp_l, Z.sub_diag, Z.mod_0_l.
      * pose proof (Z.div_mod (Int zp) (- P zp) ltac:(lia)) as Hd.
        replace (Int zp mod - P zp - Int zp)
          with ((Int zp / - P zp) * P zp) by lia.
        by apply Z.mod_mul.
    + intros Hneg [H0 H1]. simpl in *. lia.
Qed.

Lemma Norm_modulus_edges_witness :
  Norm (mkZp 5 0) = Panic "division by zero" /\
  Norm (mkZp (-3) (-7)) = Ok (mkZp 4 (-7)) /\ ~ in_field (mkZp 4 (-7)).
Proof.
  destruct (Norm_modulus_edges (mkZp 5 0) (mkZp 1 0) (mkZp 2 0)) as [H0 _].
  destruct (Norm_modulus_edges (mkZp (-3) (-7)) (mkZp 1 0) (mkZp 2 0)) as [_ H1].
  destruct (H0 eq_refl) as [HN _].
  destruct (H1 ltac:(simpl; lia)) as (r & Hr & _ & _ & _ & Hneg).
  split; [exact HN|].
  assert (r = mkZp 4 (-7)) as -> by (vm_compute in Hr; congruence).
  split; [exact Hr | apply Hneg; simpl; lia].
Defined.

(** X4. [Norm] is idempotent, and [NewZp] does not tell apart integers
    that differ by a multiple of the modulus. *)
Theorem Norm_idempotent_NewZp_congruent (zp r : Zp) (p n k : Z) :
  Norm zp = Ok r -> p <> 0 ->
  Norm r = Ok r /\ NewZp p (n + k * p) = NewZp p n.
Proof.
  intros H Hp. split.
  - apply Norm_Ok in H as [Hz ->]. unfold Norm, big_Mod. simpl.
    destruct (Z.eqb_spec (P zp) 0); [done|]. simpl.
    by rewrite Z.mod_mod by lia.
  - unfold NewZp, Norm, big_Mod. simpl. destruct (Z.eqb_spec p 0); [done|].
    simpl. do 2 f_equal.
    destruct (Z.abs_spec p) as [[_ ->]|[_ ->]].
    + by rewrite Z.mod_add.
    + replace (n + k * p) with (n + (- k) * (- p)) by lia.
      by rewrite Z.mod_add by lia.
Qed.

Lemma Norm_idempotent_NewZp_congruent_witness :
  Norm (mkZp 4 7) = Ok (mkZp 4 7) /\ NewZp 7 (-3 + 2 * 7) = NewZp 7 (-3).
Proof.
  exact (Norm_idempotent_NewZp_congruent (mkZp (-3) 7) (mkZp 4 7) 7 (-3) 2
           eq_refl ltac:(lia)).
Defined.

(** X5. Within one field [Cmp] returns -1, 0 or 1 by the order of the two
    values as they stand: 0 exactly for equal values, and the opposite
    sign with receiver and operand exchanged. It does not normalize, and
    it returns for any modulus, zero included. *)
Theorem Cmp_orders_values (zp x : Zp) :
  P x = P zp ->
  exists c, Cmp zp x = Ok c /\ Cmp x zp = Ok (- c) /\
            (c = -1 /\ Int zp < Int x \/ c = 0 /\ Int zp = Int x \/
             c = 1 /\ Int zp > Int x).
Proof.
  intros Hx. unfold Cmp.
  rewrite !assertP_same by (repeat constructor; done). simpl.
  eexists. split; [done|]. unfold big_Cmp.
  rewrite (Z.compare_antisym (Int zp) (Int x)).
  destruct (Z.compare_spec (Int zp) (Int x)); simpl; split; try done; lia.
Qed.

Lemma Cmp_orders_values_witness :
  Cmp (mkZp 8 7) (mkZp 1 7) = Ok 1 /\ Cmp (mkZp 1 7) (mkZp 8 7) = Ok (-1).
Proof.
  destruct (Cmp_orders_values (mkZp 8 7) (mkZp 1 7) eq_refl)
    as (c & H1 & H2 & H).
  assert (c = 1) as -> by (simpl in H; lia).
  exact (conj H1 H2).
Defined.

(** ** The same on the heap *)

Lemma bind_panic_run {S A B} (m : M S A) (k : A -> M S B) (s s' : S) (msg : string) :
  m s = Some (Panic msg, s') -> (a ← m; k a) s = Some (Panic msg, s').
Proof. intros E. unfold mbind, M_bind. by rewrite E. Qed.

Lemma heap_assertP_mismatch (h : ZpHeap.heap) (zp x y : ZpHeap.loc)
    (s sx sy : ZpHeap.ZpStruct) (p px py : Z) :
  ZpHeap.zps h !! zp = Some s -> ZpHeap.zps h !! x = Some sx ->
  ZpHeap.zps h !! y = Some sy ->
  ZpHeap.ints h !! ZpHeap.P_ptr s = Some p ->
  ZpHeap.ints h !! ZpHeap.P_ptr sx = Some px ->
  ZpHeap.ints h !! ZpHeap.P_ptr sy = Some py ->
  p <> px \/ p <> py ->
  ZpHeap.assertP zp [x; y] h = Some (Panic "finite field mismatch", h).
Proof.
  intros Hs Hsx Hsy Hp Hpx Hpy Hne. simpl.
  rewrite (bind_run _ _ _ _ _ (deref_run _ _ _ Hs)).
  rewrite (bind_run _ _ _ _ _ (deref_run _ _ _ Hsx)).
  rewrite (bind_run _ _ _ _ _ (load_run _ _ _ Hp)).
  rewrite (bind_run _ _ _ _ _ (load_run _ _ _ Hpx)).
  destruct (Z.eqb_spec (big_Cmp p px) 0) as [E|E]; [|done]. simpl.
  apply (proj1 (big_Cmp_eq _ _)) in E. subst px.
  rewrite (bind_run _ _ _ _ _ (deref_run _ _ _ Hs)).
  rewrite (bind_run _ _ _ _ _ (deref_run _ _ _ Hsy)).
  rewrite (bind_run _ _ _ _ _ (load_run _ _ _ Hp)).
  rewrite (bind_run _ _ _ _ _ (load_run _ _ _ Hpy)).
  destruct (Z.eqb_spec (big_Cmp p py) 0) as [E|E]; [|done].
  apply (proj1 (big_Cmp_eq _ _)) in E. destruct Hne; congruence.
Qed.

(** X6. The fields are compared before anything is written: with an
    operand of another modulus [Add] and [Mul] panic and every [big.Int],
    the receiver's included, is what it was. *)
Theorem ZpHeap_mismatch_writes_nothing (h : ZpHeap.heap) (zp x y : ZpHeap.loc)
    (s sx sy : ZpHeap.ZpStruct) (p px py : Z) :
  ZpHeap.zps h !! zp = Some s -> ZpHeap.zps h !! x = Some sx ->
  ZpHeap.zps h !! y = Some sy ->
  ZpHeap.ints h !! ZpHeap.P_ptr s = Some p ->
  ZpHeap.ints h !! ZpHeap.P_ptr sx = Some px ->
  ZpHeap.ints h !! ZpHeap.P_ptr sy = Some py ->
  p <> px \/ p <> py ->
  ZpHeap.Add zp x y h = Some (Panic "finite field mismatch", h) /\
  ZpHeap.Mul zp x y h = Some (Panic "finite field mismatch", h).
Proof.
  intros Hs Hsx Hsy Hp Hpx Hpy Hne.
  pose proof (heap_assertP_mismatch h zp x y s sx sy p px py
                Hs Hsx Hsy Hp Hpx Hpy Hne) as HA.
  unfold ZpHeap.Add, ZpHeap.Mul.
  by rewrite !(bind_panic_run _ _ _ _ _ HA).
Qed.

Lemma ZpHeap_mismatch_writes_nothing_witness :
  let h := ZpHeap.mkHeap
             (<[1%positive := 0]> (<[2%positive := 5]> (<[3%positive := 4]>
                (<[4%positive := 7]> (<[5%positive := 11]> ∅)))))
             (<[10%positive := ZpHeap.mkStruct 1%positive 4%positive]>
                (<[11%positive := ZpHeap.mkStruct 2%positive 4%positive]>
                   (<[12%positive := ZpHeap.mkStruct 3%positive 5%positive]> ∅))) in
  ZpHeap.Mul 10%positive 11%positive 12%positive h
  = Some (Panic "finite field mismatch", h).
Proof.
  intros h.
  exact (proj2 (ZpHeap_mismatch_writes_nothing h 10%positive 11%positive
                  12%positive (ZpHeap.mkStruct 1%positive 4%positive)
                  (ZpHeap.mkStruct 2%positive 4%positive)
                  (ZpHeap.mkStruct 3%positive 5%positive) 7 7 11
                  eq_refl eq_refl eq_refl eq_refl eq_refl eq_refl
                  ltac:(right; lia))).
Defined.

(** X7. With the modulus zero the panic comes from [Norm], after
    [big.Int.Add] or [big.Int.Mul] has run: the receiver is left holding
    the sum or the product, not normalized. *)
Theorem ZpHeap_zero_modulus_leaves_raw_result (h : ZpHeap.heap)
    (zp x y : ZpHeap.loc) (s sx sy : ZpHeap.ZpStruct) (a b : Z) :
  ZpHeap.zps h !! zp = Some s -> ZpHeap.zps h !! x = Some sx ->
  ZpHeap.zps h !! y = Some sy ->
  ZpHeap.ints h !! ZpHeap.Int_ptr sx = Some a ->
  ZpHeap.ints h !! ZpHeap.Int_ptr sy = Some b ->
  ZpHeap.ints h !! ZpHeap.P_ptr s = Some 0 ->
  ZpHeap.ints h !! ZpHeap.P_ptr sx = Some 0 ->
  ZpHeap.ints h !! ZpHeap.P_ptr sy = Some 0 ->
  is_Some (ZpHeap.ints h !! ZpHeap.Int_ptr s) ->
  ZpHeap.Int_ptr s <> ZpHeap.P_ptr s ->
  let raw v :=
    ZpHeap.mkHeap (<[ZpHeap.Int_ptr s := v]> (ZpHeap.ints h)) (ZpHeap.zps h) in
  ZpHeap.Add zp x y h = Some (Panic "division by zero", raw (a + b)) /\
  ZpHeap.Mul zp x y h = Some (Panic "division by zero", raw (a * b)).
Proof.
  intros Hs Hsx Hsy Ha Hb Hp Hpx Hpy Hz Hne raw.
  assert (HA : ZpHeap.assertP zp [x; y] h = Some (Ok tt, h))
    by (apply (assertP_run h zp [x; y] s 0 Hs Hp); repeat constructor; eauto).
  assert (HN : forall v, ZpHeap.Norm zp (raw v)
                         = Some (Panic "division by zero", raw v)).
  { intros v. unfold ZpHeap.Norm.
    rewrite (bind_run _ _ _ _ _ (deref_run (raw v) _ _ Hs)).
    erewrite bind_run; [|apply load_run; simpl; apply lookup_insert_eq].
    erewrite bind_run;
      [|apply load_run; simpl; rewrite lookup_insert_ne by done; exact Hp].
    done. }
  split.
  - unfold ZpHeap.Add.
    rewrite (bind_run _ _ _ _ _ HA).
    rewrite (bind_run _ _ _ _ _ (deref_run _ _ _ Hs)).
    rewrite (bind_run _ _ _ _ _ (deref_run _ _ _ Hsx)).
    rewrite (bind_run _ _ _ _ _ (deref_run _ _ _ Hsy)).
    rewrite (bind_run _ _ _ _ _ (load_run _ _ _ Ha)).
    rewrite (bind_run _ _ _ _ _ (load_run _ _ _ Hb)).
    rewrite (bind_run _ _ _ _ _ (store_run _ _ (a + b) Hz)).
    by rewrite (bind_panic_run _ _ _ _ _ (HN (a + b))).
  - unfold ZpHeap.Mul.
    rewrite (bind_run _ _ _ _ _ HA).
    rewrite (bind_run _ _ _ _ _ (deref_run _ _ _ Hs)).
    rewrite (bind_run _ _ _ _ _ (deref_run _ _ _ Hsx)).
    rewrite (bind_run _ _ _ _ _ (deref_run _ _ _ Hsy)).
    rewrite (bind_run _ _ _ _ _ (load_run _ _ _ Ha)).
    rewrite (bind_run _ _ _ _ _ (load_run _ _ _ Hb)).
    rewrite (bind_run _ _ _ _ _ (store_run _ _ (a * b) Hz)).
    by rewrite (bind_panic_run _ _ _ _ _ (HN (a * b))).
Qed.

Lemma ZpHeap_zero_modulus_leaves_raw_result_witness :
  let h := ZpHeap.mkHeap
             (<[1%positive := 9]> (<[2%positive := 5]> (<[3%positive := 4]>
                (<[4%positive := 0]> ∅))))
             (<[10%positive := ZpHeap.mkStruct 1%positive 4%positive]>
                (<[11%positive := ZpHeap.mkStruct 2%positive 4%positive]>
                   (<[12%positive := ZpHeap.mkStruct 3%positive 4%positive]> ∅))) in
  exists h',
    ZpHeap.Mul 10%positive 11%positive 12%positive h
    = Some (Panic "division by zero", h') /\
    ZpHeap.ints h' !! 1%positive = Some 20.
Proof.
  intros h.
  destruct (ZpHeap_zero_modulus_leaves_raw_result h 10%positive 11%positive
              12%positive (ZpHeap.mkStruct 1%positive 4%positive)
              (ZpHeap.mkStruct 2%positive 4%positive)
              (ZpHeap.mkStruct 3%positive 4%positive) 5 4)
    as [_ HM]; [reflexivity .. | by eexists | simpl; lia |].
  eexists. split; [exact HM | reflexivity].
Defined.

(** ** The tree: what is fetched, what is kept, what stops a call *)

Lemma find_one_inv (k : list byte) (st st' : collection) (r : error + nodeData) :
  find_one k st = Some (Ok r, st') ->
  st' = st /\
  match r with
  | inr nd => key nd = k /\ nd ∈ st
  | inl e => e = ErrNotFound /\ Forall (fun nd => key nd <> k) st
  end.
Proof.
  unfold find_one, mbind, M_bind, get_state.
  destruct (find _ st) as [nd|] eqn:E; intros [= <- <-]; (split; [done|]).
  - apply find_some in E as [Hin Hk]. apply bool_decide_eq_true in Hk.
    split; [done|]. by apply list_elem_of_In.
  - split; [done|]. apply Forall_forall. intros nd Hnd.
    apply list_elem_of_In in Hnd.
    pose proof (find_none _ _ E nd Hnd) as Hk. simpl in Hk.
    by apply bool_decide_eq_false in Hk.
Qed.

Lemma element_key_Ok (P_SKS : Z) (z : Zp) : exists bs, element_key P_SKS z = Ok bs.
Proof.
  unfold element_key, NewBitstring, big_BitLen.
  destruct (Z.eqb_spec P_SKS 0); simpl; [by eexists|].
  pose proof (Z.log2_nonneg (Z.abs P_SKS)).
  destruct (Z.ltb_spec ((Z.log2 (Z.abs P_SKS) + 1 + 7) / 8) 0); [div8|]. by eexists.
Qed.

(** X10. Without a document under the empty key [Insert] returns the
    error of the fetch, [ErrNotFound], before anything is computed on a
    node: no node is visited and the collection is what it was. *)
Theorem Insert_without_root (P_SKS : Z) (t : prefixTree) (z : Zp) (st : collection) :
  Forall (fun nd => key nd <> []) st ->
  Insert P_SKS t z st = Some (Ok ([], Some ErrNotFound), st).
Proof.
  intros Hno. unfold Insert.
  destruct (element_key_Ok P_SKS z) as [bs ->].
  unfold mbind at 1, M_bind at 1, lift at 1.
  unfold Root, find_one, mbind, M_bind, get_state.
  destruct (find _ st) as [nd|] eqn:E; [|done].
  apply find_some in E as [Hin Hk]. apply bool_decide_eq_true in Hk.
  apply list_elem_of_In in Hin.
  by destruct (proj1 (Forall_forall _ _) Hno nd Hin).
Qed.

Lemma Insert_without_root_witness :
  Insert 97 example_tree (mkZp 5 97) example_children
  = Some (Ok ([], Some ErrNotFound), example_children).
Proof.
  apply (Insert_without_root 97 example_tree (mkZp 5 97) example_children).
  repeat constructor; discriminate.
Defined.

Lemma update_bit_bits (bs bs' : Bitstring) (q : Z) (f : byte -> byte) :
  update_bit bs q f = Ok bs' ->
  bits bs' = bits bs /\ length (buf bs') = length (buf bs).
Proof.
  unfold update_bit. destruct (_ <? 0); [done|].
  destruct (buf bs !! _); [|done]. intros [= <-]. simpl.
  by rewrite length_insert.
Qed.

Lemma set_index_bits_bits (t : prefixTree) (i base : Z) (ck0 ck : Bitstring) :
  set_index_bits t i base ck0 = Ok ck ->
  bits ck = bits ck0 /\ length (buf ck) = length (buf ck0).
Proof.
  unfold set_index_bits, for_lt. intros H.
  apply (outcome_for_range_inv
           (fun _ c => bits c = bits ck0 /\ length (buf c) = length (buf ck0)))
    in H; [done|done|].
  intros k a a' _ [Hb Hl] Hbody.
  rewrite (Set_Unset_put (index_bit i (0 + Z.of_nat k))) in Hbody.
  apply update_bit_bits in Hbody as [-> ->]. done.
Qed.

Lemma Children_key_BitLen (t : prefixTree) (k ck : Bitstring) (i : Z) :
  Children_key t k i = Ok ck ->
  BitLen ck = BitLen k /\ length (Bytes ck) = Z.to_nat ((BitLen k + 7) / 8).
Proof.
  unfold Children_key, NewBitstring. destruct (_ <? 0); [done|]. simpl.
  intros H. apply set_index_bits_bits in H as [Hb Hl].
  unfold BitLen, Bytes. rewrite Hb, Hl. simpl.
  by rewrite clear_tail_length, copy_padded_length, length_replicate.
Qed.

(** X11. What [Children] returns, when it returns: for each index below
    [bitQuantum], in order, a document of the collection whose key field
    is the bytes of the key built for that index, a bit string of the bit
    length of the parent's key, not longer. One missing document, or a
    parent key that does not decode, and the call panics instead. *)
Theorem Children_are_documents (t : prefixTree) (n : nodeData)
    (st st' : collection) (l : list nodeData) :
  Children t n st = Some (Ok l, st') ->
  exists k,
    Key n = Ok k /\
    length l = Z.to_nat (BitQuantum t) /\
    forall (i : nat) child, l !! i = Some child ->
      exists ck,
        Children_key t k (Z.of_nat i) = Ok ck /\
        BitLen ck = BitLen k /\
        key child = Bytes ck /\
        child ∈ st.
Proof.
  unfold Children. intros H.
  apply bind_Ok_inv in H as (k & s1 & Hk & H).
  apply lift_Ok_inv in Hk as [Hk ->].
  exists k. split; [done|]. unfold for_lt in H.
  apply (for_range_inv (fun j a s =>
           s = st /\ length a = j /\
           forall (i : nat) child, a !! i = Some child ->
             exists ck, Children_key t k (Z.of_nat i) = Ok ck /\
                        BitLen ck = BitLen k /\ key child = Bytes ck /\
                        child ∈ st)) in H.
  - by destruct H as (_ & Hl & Hall).
  - split; [done|]. split; [done|]. by intros i child.
  - clear H. intros j a s a' s' _ (-> & Hlen & Hall) Hbody.
    apply bind_Ok_inv in Hbody as (ck & s2 & Hck & Hbody).
    apply lift_Ok_inv in Hck as [Hck ->].
    apply bind_Ok_inv in Hbody as ([e|child] & s3 & Hn & Hbody); [done|].
    apply find_one_inv in Hn as (-> & Hkey & Hin).
    injection Hbody as <- <-.
    split; [done|]. split; [rewrite length_app; simpl; lia|].
    intros i c Hi. destruct (decide (i < length a)%nat) as [Hlt|Hge].
    + rewrite lookup_app_l in Hi by done. by apply Hall.
    + assert (i = j) as -> by
        (apply lookup_lt_Some in Hi; rewrite length_app in Hi; simpl in Hi; lia).
      rewrite lookup_app_r, Hlen, Nat.sub_diag in Hi by lia.
      injection Hi as <-. exists ck. rewrite Z.add_0_l in Hck.
      split; [done|]. split; [by apply Children_key_BitLen in Hck as [? _]|done].
Qed.

Lemma Children_are_documents_witness :
  exists k,
    Key example_node = Ok k /\
    Children example_tree example_node example_children
    = Some (Ok example_children, example_children) /\
    Forall (fun child => length (key child) = 1%nat) example_children.
Proof.
  assert (E : Children example_tree example_node example_children
              = Some (Ok example_children, example_children))
    by (vm_compute; reflexivity).
  destruct (Children_are_documents example_tree example_node example_children
              example_children example_children E) as (k & Hk & _ & Hall).
  exists k. split; [exact Hk|]. split; [exact E|].
  apply Forall_lookup. intros i child Hi.
  destruct (Hall i child Hi) as (ck & Hck & _ & -> & _).
  apply Children_key_BitLen in Hck as [_ ->].
  vm_compute in Hk. injection Hk as <-. reflexivity.
Defined.

Lemma Children_members (t : prefixTree) (n : nodeData) (st st' : collection)
    (l : list nodeData) :
  Children t n st = Some (Ok l, st') -> Forall (fun c => c ∈ st) l.
Proof.
  intros H. apply Children_are_documents in H as (k & _ & _ & Hall).
  apply Forall_lookup. intros i c Hi. by destruct (Hall i c Hi) as (ck & _ & _ & _ & ?).
Qed.

Lemma NextChild_member (t : prefixTree) (n child : nodeData) (bs : Bitstring)
    (depth : Z) (st st' : collection) :
  NextChild t n bs depth st = Some (Ok child, st') -> child ∈ st /\ st' = st.
Proof.
  intros H. pose proof (read_only_NextChild _ _ _ _ _ _ _ H) as ->.
  split; [|done]. unfold NextChild in H.
  apply bind_Ok_inv in H as (children & s1 & Hc & H).
  pose proof (read_only_Children _ _ _ _ _ Hc) as ->.
  apply Children_members in Hc.
  apply bind_Ok_inv in H as (idx & s2 & _ & H).
  destruct (children !! _) as [c|] eqn:E; [|done].
  injection H as <- _. exact (Forall_lookup_1 _ _ _ _ Hc E).
Qed.

(** X12. [insert] changes neither the key nor [childKeys] of a node it
    visits: a leaf it has visited is still a leaf when it returns, with
    an error or without, after a split or not. *)
Theorem insert_keeps_leaves (P_SKS : Z) (fuel : nat) (t : prefixTree)
    (n : nodeData) (z : Zp) (marray : list Zp) (bs : Bitstring) (depth : Z)
    (st st' : collection) (path : list visit) (err : option error) :
  insert P_SKS fuel t n z marray bs depth st = Some (Ok (path, err), st') ->
  Forall (fun v => key (after v) = key (before v) /\
                   childKeys (after v) = childKeys (before v) /\
                   IsLeaf (after v) = IsLeaf (before v)) path.
Proof.
  intros H. apply insert_increments in H as [_ H].
  eapply Forall_impl; [done|]. intros v (_ & Hk & Hc).
  split; [done|]. split; [done|]. unfold IsLeaf. by rewrite Hc.
Qed.

Lemma insert_keeps_leaves_witness :
  exists path err st',
    insert 97 3 example_tree example_full_node (mkZp 9 97) example_marray
      example_key 1 example_children = Some (Ok (path, err), st') /\
    length path = 2%nat /\
    Forall (fun v => IsLeaf (after v) = true) path.
Proof.
  destruct (insert 97 3 example_tree example_full_node (mkZp 9 97) example_marray
              example_key 1 example_children)
    as [[[[path err]|msg] st']|] eqn:E; try (vm_compute in E; discriminate).
  exists path, err, st'. split; [reflexivity|].
  pose proof (insert_keeps_leaves 97 3 example_tree example_full_node (mkZp 9 97)
                example_marray example_key 1 example_children st' path err E)
    as Hall.
  vm_compute in E. injection E as <- _ _.
  split; [reflexivity|].
  apply Forall_cons in Hall as [(_ & _ & H1) Hall].
  apply Forall_cons in Hall as [(_ & _ & H2) _].
  constructor; [rewrite H1; reflexivity|].
  constructor; [rewrite H2; reflexivity | constructor].
Defined.

(** X13. Below its receiver [insert] works on documents of the collection
    as [Node] returned them, never on a node made by [newChildNode]: the
    path starts with the receiver and every later visit starts from a
    member of the collection. *)
Theorem insert_descends_into_documents (P_SKS : Z) (fuel : nat) (t : prefixTree)
    (n : nodeData) (z : Zp) (marray : list Zp) (bs : Bitstring) (depth : Z)
    (st st' : collection) (path : list visit) (err : option error) :
  insert P_SKS fuel t n z marray bs depth st = Some (Ok (path, err), st') ->
  exists n' rest,
    path = mkVisit n n' :: rest /\ Forall (fun v => before v ∈ st) rest.
Proof.
  revert n bs depth st st' path err.
  induction fuel as [|fuel IH]; intros n bs depth st st' path err H; [done|].
  simpl in H.
  apply bind_Ok_inv in H as (n1 & s1 & Hu & H).
  apply lift_Ok_inv in Hu as [Hu ->].
  assert (Hd : forall n3 s,
    s = st ->
    (child ← NextChild t n3 bs depth;
     '(path, err) ← insert P_SKS fuel t child z marray bs (depth + 1);
     mret (mkVisit n n3 :: path, err)) s = Some (Ok (path, err), st') ->
    exists n' rest,
      path = mkVisit n n' :: rest /\ Forall (fun v => before v ∈ st) rest).
  { intros n3 s -> Hrun.
    apply bind_Ok_inv in Hrun as (child & s2 & Hn & Hrun).
    apply NextChild_member in Hn as [Hin ->].
    apply bind_Ok_inv in Hrun as ([p e] & s3 & Hins & Hrun).
    injection Hrun as <- <- <-.
    apply IH in Hins as (c' & rest & -> & Hrest).
    eexists _, _. split; [done|]. by constructor. }
  destruct (IsLeaf _).
  - destruct (_ >? _).
    + apply bind_Ok_inv in H as (n3 & s2 & Hs & H).
      pose proof Hs as Hro.
      apply read_only_split_with in Hro; [|intros; apply read_only_insert].
      by apply (Hd _ _ Hro) in H.
    + destruct (append_element _ _ _). injection H as <- <- <-.
      eexists _, _. split; [done|]. constructor.
  - by apply (Hd _ _ eq_refl) in H.
Qed.

(** X14. At an internal node [insert] does not touch the payload and
    does not stop: when it returns, the path goes on to a second node. *)
Theorem insert_internal_passes_on (P_SKS : Z) (fuel : nat) (t : prefixTree)
    (n : nodeData) (z : Zp) (marray : list Zp) (bs : Bitstring) (depth : Z)
    (st st' : collection) (path : list visit) (err : option error) :
  IsLeaf n = false ->
  insert P_SKS fuel t n z marray bs depth st = Some (Ok (path, err), st') ->
  exists n' v rest,
    path = mkVisit n n' :: v :: rest /\ elements n' = elements n /\
    before v ∈ st.
Proof.
  intros Hleaf H. destruct fuel as [|fuel]; [done|]. simpl in H.
  apply bind_Ok_inv in H as (n1 & s1 & Hu & H).
  apply lift_Ok_inv in Hu as [Hu ->].
  apply updateSvalues_fields in Hu as (_ & _ & He & Hc).
  assert (Hl : IsLeaf (incr_numElements n1) = false)
    by (unfold IsLeaf in *; simpl; by rewrite Hc).
  rewrite Hl in H.
  apply bind_Ok_inv in H as (child & s2 & Hn & H).
  apply NextChild_member in Hn as [Hin ->].
  apply bind_Ok_inv in H as ([p e] & s3 & Hins & H).
  injection H as <- <- <-.
  apply insert_increments in Hins as [(c' & rest & ->) _].
  by eexists _, _, _.
Qed.

Lemma insert_descends_into_documents_witness :
  exists n' v err st',
    insert 97 3 example_tree example_full_node (mkZp 9 97) example_marray
      example_key 1 example_children
    = Some (Ok ([mkVisit example_full_node n'; v], err), st') /\
    before v ∈ example_children.
Proof.
  destruct (insert 97 3 example_tree example_full_node (mkZp 9 97) example_marray
              example_key 1 example_children)
    as [[[[path err]|msg] st']|] eqn:E; try (vm_compute in E; discriminate).
  destruct (insert_descends_into_documents 97 3 example_tree example_full_node
              (mkZp 9 97) example_marray example_key 1 example_children st'
              path err E) as (n' & rest & -> & Hall).
  destruct rest as [|v [|w rest]]; try (vm_compute in E; discriminate).
  exists n', v, err, st'. split; [reflexivity|]. exact (Forall_inv Hall).
Defined.

Lemma insert_internal_passes_on_witness :
  exists n' v rest err st',
    insert 97 3 example_tree example_internal_node (mkZp 9 97) example_marray
      example_key 1 example_children
    = Some (Ok (mkVisit example_internal_node n' :: v :: rest, err), st') /\
    elements n' = [] /\ before v ∈ example_children.
Proof.
  destruct (insert 97 3 example_tree example_internal_node (mkZp 9 97)
              example_marray example_key 1 example_children)
    as [[[[path err]|msg] st']|] eqn:E; try (vm_compute in E; discriminate).
  destruct (insert_internal_passes_on 97 3 example_tree example_internal_node
              (mkZp 9 97) example_marray example_key 1 example_children st'
              path err eq_refl E) as (n' & v & rest & -> & He & Hin).
  exists n', v, rest, err, st'. split; [reflexivity|]. split; [exact He | exact Hin].
Defined.

(** ** updateSvalues: when it returns, and in which order *)

Lemma mul_svalues_rest (z : Zp) (marray svs svs' : list Zp) :
  mul_svalues z marray svs = Ok svs' ->
  forall j : nat, (length marray <= j)%nat -> svs' !! j = svs !! j.
Proof.
  unfold mul_svalues, for_lt. rewrite Nat2Z.id. intros H.
  refine (outcome_for_range_inv
            (fun (k : nat) (a : list Zp) =>
               forall j : nat, (k <= j)%nat -> a !! j = svs !! j)
            _ _ _ _ _ H _ _).
  - done.
  - clear H. intros k a a' Hk Hrest Hbody.
    rewrite Z.add_0_l, Nat2Z.id in Hbody.
    destruct (a !! k) as [sv|] eqn:Ea; [|done].
    destruct (marray !! k) as [m|] eqn:Em; [|done].
    apply outcome_bind_Ok_inv in Hbody as (r & Hmul & [= <-]).
    intros j Hj. rewrite list_lookup_insert_ne by lia. apply Hrest. lia.
Qed.

(** Every entry of the result, by the entry it came from. *)
Lemma mul_svalues_lookup (z : Zp) (marray svs svs' : list Zp) (j : nat) :
  mul_svalues z marray svs = Ok svs' ->
  svs' !! j
  = match marray !! j with
    | Some m =>
        sv ← svs !! j;
        Some (mkZp ((Int sv * Int m) mod Z.abs (P z)) (P z))
    | None => svs !! j
    end.
Proof.
  intros H. destruct (marray !! j) as [m|] eqn:Em.
  - destruct (mul_svalues_spec _ _ _ _ H) as (_ & Hprod & _).
    destruct (Hprod j m Em) as (sv & r & Hsv & Hr & ->).
    rewrite Hsv. simpl. by apply Mul_Ok in Hr as (_ & _ & _ & ->).
  - apply (mul_svalues_rest _ _ _ _ H). by apply lookup_ge_None.
Qed.

Lemma mul_svalues_total (p : Z) (z : Zp) (marray svs : list Zp) :
  (length marray <= length svs)%nat ->
  P z = p -> p <> 0 ->
  Forall (fun m => P m = p) marray -> Forall (fun sv => P sv = p) svs ->
  exists svs', mul_svalues z marray svs = Ok svs'.
Proof.
  intros Hlen Hz Hp Hm Hs. unfold mul_svalues, for_lt. rewrite Nat2Z.id.
  destruct (outcome_for_range_total
              (fun (_ : nat) (a : list Zp) =>
                 length a = length svs /\ Forall (fun sv => P sv = p) a)
              (length marray) 0
              (fun i svs0 =>
                 match svs0 !! Z.to_nat i, marray !! Z.to_nat i with
                 | Some sv, Some m =>
                     r ← Mul (Z_ (P z)) sv m; mret (<[Z.to_nat i := r]> svs0)
                 | _, _ => Panic "index out of range"
                 end) svs) as (r & Hr & _); [done| |by exists r].
  intros k a Hk [Hla Ha]. rewrite Z.add_0_l, Nat2Z.id.
  destruct (lookup_lt_is_Some_2 a k ltac:(lia)) as [sv Hsv].
  destruct (lookup_lt_is_Some_2 marray k Hk) as [m Hmk].
  rewrite Hsv, Hmk.
  pose proof (Forall_lookup_1 _ _ _ _ Ha Hsv) as Hpsv.
  pose proof (Forall_lookup_1 _ _ _ _ Hm Hmk) as Hpm. simpl in Hpsv, Hpm.
  rewrite Mul_eq by (simpl; congruence). simpl.
  eexists. split; [done|]. split; [by rewrite length_insert|].
  apply Forall_insert; [done|]. simpl. done.
Qed.

(** X15. [updateSvalues] returns exactly when the delta vector has as many
    entries as the tree has sample points, the stored sample values decode
    and are at least as many, and, if there is any point at all, the
    element and the deltas are of the field [P_SKS], whose modulus is not
    zero. In every other case it panics. *)
Theorem updateSvalues_returns_iff (P_SKS : Z) (t : prefixTree) (n : nodeData)
    (z : Zp) (marray : list Zp) :
  (exists n1, updateSvalues P_SKS t n z marray = Ok n1) <->
  length marray = length (points t) /\
  exists svs,
    ReadZZarray P_SKS (svalues n) = inr svs /\
    (length marray <= length svs)%nat /\
    (marray <> [] ->
     P z = P_SKS /\ P_SKS <> 0 /\ Forall (fun m => P m = P_SKS) marray).
Proof.
  split.
  - intros [n1 H]. pose proof H as H'.
    unfold updateSvalues in H'.
    destruct (Z.eqb_spec (Z.of_nat (length marray)) (Z.of_nat (length (points t))))
      as [El|]; [|done]. clear H'.
    split; [lia|].
    apply updateSvalues_spec in H as (svs & svs' & Hr & Hmul & _).
    exists svs. split; [done|].
    pose proof (ReadZZarray_wf _ _ _ Hr) as [Hwf _].
    apply mul_svalues_spec in Hmul as (_ & Hprod & _).
    assert (Hall : forall (j : nat) m, marray !! j = Some m ->
              is_Some (svs !! j) /\ P z = P_SKS /\ P_SKS <> 0 /\ P m = P_SKS).
    { intros j m Hm. destruct (Hprod j m Hm) as (sv & r & Hsv & Hr' & _).
      apply Mul_Ok in Hr' as (Hx & Hy & Hp & _). simpl in *.
      destruct (Forall_lookup_1 _ _ _ _ Hwf Hsv) as [Hsvp _].
      split; [by eexists|]. split; [congruence|]. split; congruence. }
    split.
    + destruct (le_lt_dec (length marray) (length svs)) as [|Hlt]; [done|].
      destruct (lookup_lt_is_Some_2 marray (length svs) Hlt) as [m Hm].
      destruct (Hall _ m Hm) as [Hs _].
      apply lookup_lt_is_Some_1 in Hs. lia.
    + intros Hne. destruct marray as [|m0 ms]; [done|].
      destruct (Hall 0%nat m0 eq_refl) as (_ & Hz & Hp & _).
      split; [done|]. split; [done|].
      apply Forall_lookup. intros j m Hm. by destruct (Hall j m Hm) as (_ & _ & _ & ?).
  - intros (Hlen & svs & Hr & Hle & Hfield).
    unfold updateSvalues. rewrite Hlen, Z.eqb_refl, Hr. simpl.
    destruct marray as [|m0 ms].
    + exists (mkNodeData (key n) (numElements n) (WriteZZarray P_SKS svs)
                (elements n) (childKeys n)). done.
    + destruct (Hfield ltac:(done)) as (Hz & Hp & Hm).
      pose proof (ReadZZarray_wf _ _ _ Hr) as [Hwf _].
      destruct (mul_svalues_total P_SKS z (m0 :: ms) svs Hle Hz Hp Hm) as [svs' ->].
      { eapply Forall_impl; [done|]. by intros sv [? _]. }
      simpl. by eexists.
Qed.

Lemma updateSvalues_returns_iff_witness :
  (exists n1, updateSvalues 97 example_tree example_root (mkZp 9 97) example_marray
              = Ok n1) /\
  ~ (exists n1, updateSvalues 97 example_tree example_root (mkZp 9 97)
                  [mkZp 88 97] = Ok n1).
Proof.
  split.
  - apply (proj2 (updateSvalues_returns_iff 97 example_tree example_root
                    (mkZp 9 97) example_marray)).
    split; [reflexivity|]. eexists. split; [vm_compute; reflexivity|].
    split; [simpl; lia|]. intros _. split; [reflexivity|]. split; [lia|].
    repeat constructor.
  - intros H.
    apply (proj1 (updateSvalues_returns_iff 97 example_tree example_root
                    (mkZp 9 97) [mkZp 88 97])) in H as [H _].
    discriminate H.
Defined.

Lemma mul_svalues_comm (z1 z2 : Zp) (m1 m2 svs sa sab sb sba : list Zp) :
  length m1 = length m2 ->
  mul_svalues z1 m1 svs = Ok sa -> mul_svalues z2 m2 sa = Ok sab ->
  mul_svalues z2 m2 svs = Ok sb -> mul_svalues z1 m1 sb = Ok sba ->
  sab = sba.
Proof.
  intros Hlen H1 H12 H2 H21. apply list_eq. intros j.
  rewrite (mul_svalues_lookup _ _ _ _ j H12), (mul_svalues_lookup _ _ _ _ j H21).
  rewrite (mul_svalues_lookup _ _ _ _ j H1), (mul_svalues_lookup _ _ _ _ j H2).
  destruct (m1 !! j) as [d1|] eqn:E1.
  - destruct (m2 !! j) as [d2|] eqn:E2.
    + destruct (svs !! j) as [sv|] eqn:Es; [|done]. simpl.
      destruct (mul_svalues_spec _ _ _ _ H12) as (_ & Hp12 & _).
      destruct (Hp12 j d2 E2) as (x & r & Hx & Hr & _).
      rewrite (mul_svalues_lookup _ _ _ _ j H1), E1, Es in Hx.
      simpl in Hx. injection Hx as <-.
      apply Mul_Ok in Hr as (Hpx & _ & Hp2 & _). simpl in Hpx, Hp2.
      rewrite Hpx. do 2 f_equal.
      rewrite !Z.mul_mod_idemp_l by lia. f_equal. lia.
    + apply lookup_lt_Some in E1. apply lookup_ge_None in E2. lia.
  - destruct (m2 !! j) as [d2|] eqn:E2; [|done].
    apply lookup_lt_Some in E2. apply lookup_ge_None in E1. lia.
Qed.

(** X16. The sample values do not depend on the order of two updates:
    [updateSvalues] for [z1] and then for [z2] leaves the node that
    [updateSvalues] for [z2] and then for [z1] leaves. *)
Theorem updateSvalues_commute (P_SKS : Z) (t : prefixTree) (n a ab b ba : nodeData)
    (z1 z2 : Zp) (m1 m2 : list Zp) :
  updateSvalues P_SKS t n z1 m1 = Ok a -> updateSvalues P_SKS t a z2 m2 = Ok ab ->
  updateSvalues P_SKS t n z2 m2 = Ok b -> updateSvalues P_SKS t b z1 m1 = Ok ba ->
  ab = ba.
Proof.
  intros H1 H12 H2 H21.
  assert (Hlen : length m1 = length m2).
  { destruct (proj1 (updateSvalues_returns_iff _ _ _ _ _) (ex_intro _ _ H1)) as [-> _].
    by destruct (proj1 (updateSvalues_returns_iff _ _ _ _ _) (ex_intro _ _ H2))
      as [-> _]. }
  pose proof (updateSvalues_fields _ _ _ _ _ _ H1) as (K1 & N1 & E1 & C1).
  pose proof (updateSvalues_fields _ _ _ _ _ _ H12) as (K12 & N12 & E12 & C12).
  pose proof (updateSvalues_fields _ _ _ _ _ _ H2) as (K2 & N2 & E2 & C2).
  pose proof (updateSvalues_fields _ _ _ _ _ _ H21) as (K21 & N21 & E21 & C21).
  apply updateSvalues_spec in H1 as (svs & sa & Hr & Hm1 & Ha).
  apply updateSvalues_spec in H2 as (svs' & sb & Hr' & Hm2 & Hb).
  assert (svs' = svs) as -> by congruence.
  pose proof (ReadZZarray_wf _ _ _ Hr) as [Hwf Hl].
  apply updateSvalues_spec in H12 as (sa' & sab & Hra & Hm12 & Hab).
  apply updateSvalues_spec in H21 as (sb' & sba & Hrb & Hm21 & Hba).
  destruct (mul_svalues_spec _ _ _ _ Hm1) as (La & _ & Wa).
  destruct (mul_svalues_spec _ _ _ _ Hm2) as (Lb & _ & Wb).
  rewrite Ha, ReadZZarray_WriteZZarray in Hra by (auto; lia).
  rewrite Hb, ReadZZarray_WriteZZarray in Hrb by (auto; lia).
  injection Hra as <-. injection Hrb as <-.
  pose proof (mul_svalues_comm _ _ _ _ _ _ _ _ _ Hlen Hm1 Hm12 Hm2 Hm21) as ->.
  destruct ab, ba. simpl in *. congruence.
Qed.

Lemma updateSvalues_commute_witness :
  exists a ab b,
    updateSvalues 97 example_tree example_root (mkZp 9 97) example_marray = Ok a /\
    updateSvalues 97 example_tree a (mkZp 5 97) [mkZp 92 97; mkZp 91 97; mkZp 93 97]
    = Ok ab /\
    updateSvalues 97 example_tree example_root (mkZp 5 97)
      [mkZp 92 97; mkZp 91 97; mkZp 93 97] = Ok b /\
    updateSvalues 97 example_tree b (mkZp 9 97) example_marray = Ok ab.
Proof.
  destruct (updateSvalues 97 example_tree example_root (mkZp 9 97) example_marray)
    as [a|] eqn:E1; [|vm_compute in E1; discriminate].
  destruct (updateSvalues 97 example_tree a (mkZp 5 97)
              [mkZp 92 97; mkZp 91 97; mkZp 93 97])
    as [ab|] eqn:E12;
    [|vm_compute in E1; injection E1 as <-; vm_compute in E12; discriminate].
  destruct (updateSvalues 97 example_tree example_root (mkZp 5 97)
              [mkZp 92 97; mkZp 91 97; mkZp 93 97])
    as [b|] eqn:E2; [|vm_compute in E2; discriminate].
  destruct (updateSvalues 97 example_tree b (mkZp 9 97) example_marray)
    as [ba|] eqn:E21;
    [|vm_compute in E2; injection E2 as <-; vm_compute in E21; discriminate].
  pose proof (updateSvalues_commute 97 example_tree example_root a ab b ba
                (mkZp 9 97) (mkZp 5 97) example_marray
                [mkZp 92 97; mkZp 91 97; mkZp 93 97] E1 E12 E2 E21) as Hc.
  exists a, ab, b. rewrite Hc in *.
  repeat split; first [reflexivity | assumption].
Defined.

(** ** Nodes that cannot be worked on *)

Lemma newChildNode_shape (t : prefixTree) (parent child : nodeData) (i : Z) :
  newChildNode t parent i = Ok child ->
  exists k, child = mkNodeData k 0 [] [] [].
Proof.
  unfold newChildNode. intros H.
  apply outcome_bind_Ok_inv in H as (k & _ & H).
  apply outcome_bind_Ok_inv in H as (ck & _ & H).
  apply outcome_bind_Ok_inv in H as (ck' & _ & H).
  injection H as <-. by eexists.
Qed.

Lemma updateSvalues_empty_svalues (P_SKS : Z) (t : prefixTree) (n : nodeData)
    (z : Zp) (marray : list Zp) :
  svalues n = [] ->
  updateSvalues P_SKS t n z marray
  = Panic (if Z.of_nat (length marray) =? Z.of_nat (length (points t))
           then "Failed to read svalues" else "Inconsistent NumSamples size").
Proof.
  intros E. unfold updateSvalues. rewrite E.
  by destruct (Z.of_nat (length marray) =? Z.of_nat (length (points t))).
Qed.

(** X17. The node [newChildNode] returns is a leaf of size 0 with nothing
    in [svalues] and [elements], and nothing is not an encoded array (the
    encoding of the empty array has its length in front): [Elements] and
    [SValues] panic on it, and so does [insert], in [updateSvalues], before
    it gets to count the element. *)
Theorem newChildNode_result_cannot_insert (P_SKS : Z) (t : prefixTree)
    (parent child : nodeData) (i : Z) :
  newChildNode t parent i = Ok child ->
  Size child = 0 /\ IsLeaf child = true /\
  Elements P_SKS child = Panic "Invalid elements" /\
  SValues P_SKS child = Panic "Invalid elements" /\
  forall (fuel : nat) (z : Zp) (marray : list Zp) (bs : Bitstring) (depth : Z)
         (st : collection),
    insert P_SKS (S fuel) t child z marray bs depth st
    = Some (Panic (if Z.of_nat (length marray) =? Z.of_nat (length (points t))
                   then "Failed to read svalues"
                   else "Inconsistent NumSamples size"), st).
Proof.
  intros H. apply newChildNode_shape in H as [k ->].
  repeat split. intros fuel z marray bs depth st.
  cbn [insert]. apply bind_panic_run. unfold lift.
  by rewrite updateSvalues_empty_svalues.
Qed.

Lemma newChildNode_result_cannot_insert_witness :
  exists child,
    newChildNode example_tree example_node 3 = Ok child /\
    insert 97 1 example_tree child (mkZp 9 97) example_marray example_key 2
      [example_node]
    = Some (Panic "Failed to read svalues", [example_node]).
Proof.
  destruct (newChildNode example_tree example_node 3) as [child|] eqn:E;
    [|vm_compute in E; discriminate].
  exists child. split; [reflexivity|].
  destruct (newChildNode_result_cannot_insert 97 example_tree example_node
              child 3 E) as (_ & _ & _ & _ & H).
  exact (H 0%nat (mkZp 9 97) example_marray example_key 2 [example_node]).
Defined.

Lemma Key_empty (n : nodeData) : key n = [] -> Key n = Panic "Invalid bitstring".
Proof. unfold Key. by intros ->. Qed.

Lemma Children_empty_key (t : prefixTree) (n : nodeData) (st : collection) :
  key n = [] -> Children t n st = Some (Panic "Invalid bitstring", st).
Proof.
  intros E. unfold Children. apply bind_panic_run. unfold lift.
  by rewrite Key_empty.
Qed.

Lemma NextChild_empty_key (t : prefixTree) (n : nodeData) (bs : Bitstring)
    (depth : Z) (st : collection) :
  key n = [] -> NextChild t n bs depth st = Some (Panic "Invalid bitstring", st).
Proof.
  intros E. unfold NextChild. apply bind_panic_run. by apply Children_empty_key.
Qed.

Lemma shl_one_to_uint (bq : Z) : 0 <= bq <= 62 -> shl_one (to_uint bq) = 2 ^ bq.
Proof.
  intros Hb. unfold shl_one, to_uint.
  rewrite Z.mod_small by lia.
  destruct (Z.ltb_spec bq 64) as [_|]; [|lia].
  unfold wrap_int.
  assert (0 < 2 ^ bq) by (apply Z.pow_pos_nonneg; lia).
  assert (2 ^ bq <= 2 ^ 62) by (apply Z.pow_le_mono_r; lia).
  rewrite Z.mod_small; lia.
Qed.

(** X18. The root is the document under the empty key, and the empty key
    is not an encoded bit string. So for a node with the empty key
    [Parent] answers that there is none, [Children] and [newChildNode]
    panic in [Key], and with [bitQuantum] between 0 and 62 [split] panics
    at the first child it tries to make, whatever the elements are. *)
Theorem empty_key_node_has_no_family (P_SKS : Z) (t : prefixTree) (n : nodeData)
    (st : collection) :
  key n = [] ->
  Parent t n st = Some (Ok None, st) /\
  Children t n st = Some (Panic "Invalid bitstring", st) /\
  (forall i : Z, newChildNode t n i = Panic "Invalid bitstring") /\
  (0 <= BitQuantum t <= 62 ->
   forall (fuel : nat) (depth : Z),
     split P_SKS fuel t n depth st = Some (Panic "Invalid bitstring", st)).
Proof.
  intros E. split; [|split; [|split]].
  - unfold Parent. by rewrite E.
  - by apply Children_empty_key.
  - intros i. unfold newChildNode. by rewrite Key_empty.
  - intros Hbq fuel depth. unfold split, split_with.
    apply bind_panic_run. rewrite shl_one_to_uint by done.
    unfold for_lt.
    assert (0 < 2 ^ BitQuantum t) by (apply Z.pow_pos_nonneg; lia).
    destruct (Z.to_nat (2 ^ BitQuantum t)) as [|c] eqn:Ec; [lia|].
    cbn [for_range]. apply bind_panic_run. apply bind_panic_run.
    unfold lift, newChildNode. by rewrite Key_empty.
Qed.

Lemma empty_key_node_has_no_family_witness :
  Parent example_tree example_root [example_root] = Some (Ok None, [example_root]) /\
  Children example_tree example_root [example_root]
  = Some (Panic "Invalid bitstring", [example_root]) /\
  split 97 3 example_tree example_root 0 [example_root]
  = Some (Panic "Invalid bitstring", [example_root]).
Proof.
  destruct (empty_key_node_has_no_family 97 example_tree example_root
              [example_root] eq_refl) as (Hp & Hc & _ & Hs).
  split; [exact Hp|]. split; [exact Hc|].
  apply Hs. vm_compute. split; discriminate.
Defined.

Lemma insert_empty_key (P_SKS : Z) (fuel : nat) (t : prefixTree) (n : nodeData)
    (z : Zp) (marray : list Zp) (bs : Bitstring) (depth : Z)
    (st st' : collection) (path : list visit) (err : option error) :
  key n = [] ->
  insert P_SKS fuel t n z marray bs depth st = Some (Ok (path, err), st') ->
  IsLeaf n = true /\
  Z.of_nat (length (elements n)) <= SplitThreshold t /\
  exists n', path = [mkVisit n n'].
Proof.
  intros Ek H. destruct fuel as [|fuel]; [done|]. cbn [insert] in H.
  apply bind_Ok_inv in H as (n1 & s1 & Hu & H).
  apply lift_Ok_inv in Hu as [Hu ->].
  apply updateSvalues_fields in Hu as (K1 & N1 & E1 & C1).
  assert (Hleaf : IsLeaf (incr_numElements n1) = IsLeaf n).
  { unfold IsLeaf. cbn [incr_numElements childKeys]. by rewrite C1. }
  rewrite Hleaf in H.
  assert (Hdescend : forall n3 s r,
            key n3 = [] ->
            (child ← NextChild t n3 bs depth;
             '(path, err) ← insert P_SKS fuel t child z marray bs (depth + 1);
             mret (mkVisit n n3 :: path, err)) s = Some (Ok r, st') -> False).
  { intros n3 s r K3 Hd. apply bind_Ok_inv in Hd as (c & s2 & Hn & _).
    by rewrite NextChild_empty_key in Hn. }
  destruct (IsLeaf n) eqn:El.
  - cbn [incr_numElements elements] in H. rewrite E1 in H.
    destruct (Z.gtb_spec (Z.of_nat (length (elements n))) (SplitThreshold t))
      as [Hgt|Hle].
    + apply bind_Ok_inv in H as (n3 & s3 & Hs & H).
      apply split_with_result in Hs as ->.
      exfalso. eapply Hdescend; [|exact H]. simpl. congruence.
    + split; [done|]. split; [done|].
      destruct (append_element P_SKS _ z) as [n3 e3].
      injection H as <- _ _. by eexists.
  - exfalso. eapply Hdescend; [|exact H]. simpl. congruence.
Qed.

(** X19. When [Insert] returns it has not gone below the root: either no
    root was found and the error is [ErrNotFound], or exactly one node was
    visited, the root, which is a leaf with no more bytes of elements than
    the split threshold. At a root that is too full or has child keys
    [Insert] panics, because the step down asks for [Children] of the empty
    key (through [NextChild], which is modelled on [Children]). *)
Theorem Insert_returns_only_at_leaf_root (P_SKS : Z) (t : prefixTree) (z : Zp)
    (st st' : collection) (path : list visit) (err : option error) :
  Insert P_SKS t z st = Some (Ok (path, err), st') ->
  (path = [] /\ err = Some ErrNotFound /\ Forall (fun nd => key nd <> []) st) \/
  (exists root n',
     path = [mkVisit root n'] /\ root ∈ st /\ key root = [] /\
     IsLeaf root = true /\
     Z.of_nat (length (elements root)) <= SplitThreshold t).
Proof.
  unfold Insert. intros H.
  apply bind_Ok_inv in H as (bs & s1 & Hk & H).
  apply lift_Ok_inv in Hk as [_ ->].
  apply bind_Ok_inv in H as (r & s2 & Hr & H).
  apply find_one_inv in Hr as [-> Hr].
  destruct r as [e|root].
  - destruct Hr as [-> Hall]. injection H as <- <- _. by left.
  - destruct Hr as [Hkey Hin].
    apply bind_Ok_inv in H as (marray & s3 & Hm & H).
    apply lift_Ok_inv in Hm as [_ ->].
    apply (insert_empty_key _ _ _ _ _ _ _ _ _ _ _ _ Hkey) in H
      as (Hl & Hle & n' & ->).
    right. by exists root, n'.
Qed.

Lemma Insert_returns_only_at_leaf_root_witness :
  exists n',
    Insert 97 example_tree (mkZp 9 97) [example_root]
    = Some (Ok ([mkVisit example_root n'], None), [example_root]).
Proof.
  destruct (Insert 97 example_tree (mkZp 9 97) [example_root])
    as [[[[path err]|msg] st']|] eqn:E; try (vm_compute in E; discriminate).
  destruct (Insert_returns_only_at_leaf_root 97 example_tree (mkZp 9 97)
              [example_root] st' path err E)
    as [(_ & He & Hall)|(root & n' & Hp & Hin & _)].
  - exfalso. apply Forall_cons in Hall as [Hne _]. by apply Hne.
  - exists n'. apply list_elem_of_singleton in Hin. subst root path.
    vm_compute in E. injection E as <- <- <-. reflexivity.
Defined.

(** X20. What [Parent] returns, when it returns, for a node whose key, if
    it decodes, has at least [bitQuantum] bits: none for the empty key and
    for no other; otherwise the first document of the collection whose key
    field is the bytes of the parent key, the decoded key of the node cut
    to [bitQuantum] bits fewer. The collection is not changed. *)
Theorem Parent_result (t : prefixTree) (n : nodeData) (st st' : collection)
    (r : option nodeData) :
  (forall k, Key n = Ok k -> BitQuantum t <= BitLen k) ->
  Parent t n st = Some (Ok r, st') ->
  st' = st /\
  match r with
  | None => key n = []
  | Some p =>
      key n <> [] /\
      exists k pk,
        Key n = Ok k /\ Parent_key t n = Ok pk /\
        BitLen pk = BitLen k - BitQuantum t /\
        length (Bytes pk) = Z.to_nat ((BitLen pk + 7) / 8) /\
        key p = Bytes pk /\ p ∈ st
  end.
Proof.
  unfold Parent. intros Hbits H.
  destruct (Z.eqb_spec (Z.of_nat (length (key n))) 0) as [E0|Ene].
  - injection H as <- <-. split; [done|]. by destruct (key n).
  - apply bind_Ok_inv in H as (pk & s1 & Hpk & H).
    apply lift_Ok_inv in Hpk as [Hpk ->].
    apply bind_Ok_inv in H as (f & s2 & Hf & H).
    apply find_one_inv in Hf as [-> Hf].
    destruct f as [e|p]; [done|]. injection H as <- <-.
    destruct Hf as [Hkey Hin].
    split; [done|]. split; [by intros E; rewrite E in Ene|].
    pose proof Hpk as Hpk'. unfold Parent_key in Hpk'.
    apply outcome_bind_Ok_inv in Hpk' as (rb & Hrb & Hpk').
    destruct rb as [e|k]; [done|].
    assert (Hk : Key n = Ok k) by (unfold Key; by rewrite Hrb).
    pose proof (Hbits k Hk) as Hge.
    apply outcome_bind_Ok_inv in Hpk' as (pk0 & Hnew & Hset).
    unfold NewBitstring in Hnew.
    destruct (Z.ltb_spec ((BitLen k - BitQuantum t + 7) / 8) 0) as [Hneg|_];
      [exfalso; div8|].
    injection Hnew as <-. injection Hset as <-.
    exists k, (SetBytes
                 (mkBitstring
                    (replicate (Z.to_nat ((BitLen k - BitQuantum t + 7) / 8)) x00)
                    (BitLen k - BitQuantum t)) (Bytes k)).
    split; [done|]. split; [done|]. split; [done|].
    split; [|done].
    unfold Bytes at 1. rewrite SetBytes_length. simpl.
    by rewrite length_replicate.
Qed.

Lemma Parent_result_witness :
  exists p,
    Parent example_tree (mkNodeData (WriteBitstring (mkBitstring [byte_of_Z 128] 2))
                           0 [] [] [])
      [example_root; mkNodeData [] 1 [] [] []; mkNodeData [x00] 2 [] [] []]
    = Some (Ok (Some p), [example_root; mkNodeData [] 1 [] [] [];
                          mkNodeData [x00] 2 [] [] []]) /\
    key p = [].
Proof.
  destruct (Parent example_tree
              (mkNodeData (WriteBitstring (mkBitstring [byte_of_Z 128] 2)) 0 [] [] [])
              [example_root; mkNodeData [] 1 [] [] []; mkNodeData [x00] 2 [] [] []])
    as [[[[p|]|msg] st']|] eqn:E; try (vm_compute in E; discriminate).
  assert (Hbits : forall k,
            Key (mkNodeData (WriteBitstring (mkBitstring [byte_of_Z 128] 2)) 0 [] [] [])
            = Ok k -> BitQuantum example_tree <= BitLen k).
  { intros k Hk. vm_compute in Hk. injection Hk as <-. vm_compute. discriminate. }
  destruct (Parent_result _ _ _ _ _ Hbits E)
    as (-> & _ & k & pk & _ & Hpk & _ & _ & Hkp & _).
  exists p. split; [reflexivity|].
  vm_compute in Hpk. injection Hpk as <-. exact Hkp.
Defined.

(** ** The moduli and the derived settings *)

Lemma moduli_bounds :
  Forall (fun kp => 2 ^ kp.1 < kp.2 < 2 ^ (kp.1 + 1)) moduli.
Proof. repeat constructor; vm_compute; reflexivity. Qed.

(** X8. Each of the four moduli [p_128], [p_160], [p_256] and [p_512] lies
    strictly between 2^k and 2^(k+1) for its width k: it has k+1 bits, and
    every k-bit value (a digest of that width) is an element of the field
    as it stands: [Norm] returns it unchanged, and adding zero to it or
    multiplying it by one gives it back. *)
Theorem moduli_hold_digests (k p x : Z) :
  (k, p) ∈ moduli -> 0 <= x < 2 ^ k ->
  big_BitLen p = k + 1 /\
  Norm (mkZp x p) = Ok (mkZp x p) /\
  Add (mkZp 0 p) (mkZp x p) (mkZp 0 p) = Ok (mkZp x p) /\
  Mul (mkZp 0 p) (mkZp x p) (mkZp 1 p) = Ok (mkZp x p).
Proof.
  intros Hin Hx.
  pose proof (proj1 (Forall_forall _ _) moduli_bounds _ Hin) as [Hlo Hhi].
  simpl in Hlo, Hhi.
  assert (Hk : 0 <= k).
  { unfold moduli in Hin. set_unfold in Hin.
    destruct Hin as [[= -> _]|[[= -> _]|[[= -> _]|[[= -> _]|[]]]]]; lia. }
  assert (0 < 2 ^ k) by (apply Z.pow_pos_nonneg; lia).
  assert (Hnorm : forall y, 0 <= y < 2 ^ k -> Norm (mkZp y p) = Ok (mkZp y p)).
  { intros y Hy. unfold Norm. simpl. rewrite big_Mod_pos by lia. simpl.
    by rewrite Z.mod_small by lia. }
  split; [|split; [|split]].
  - unfold big_BitLen. destruct (Z.eqb_spec p 0); [lia|].
    rewrite Z.abs_eq by lia. f_equal.
    apply Z.log2_unique; lia.
  - by apply Hnorm.
  - rewrite Add_eq by (simpl; lia). simpl.
    rewrite Z.abs_eq, Z.add_0_r, Z.mod_small by lia. done.
  - rewrite Mul_eq by (simpl; lia). simpl.
    rewrite Z.abs_eq, Z.mul_1_r, Z.mod_small by lia. done.
Qed.

Lemma moduli_hold_digests_witness :
  big_BitLen p_128 = 129 /\
  Norm (mkZp (2 ^ 128 - 1) p_128) = Ok (mkZp (2 ^ 128 - 1) p_128).
Proof.
  destruct (moduli_hold_digests 128 p_128 (2 ^ 128 - 1)) as (Hb & Hn & _).
  - unfold moduli. set_solver.
  - lia.
  - split; [exact Hb | exact Hn].
Defined.

Lemma wrap_int_small (z : Z) : - 2 ^ 63 <= z <= max_int -> wrap_int z = z.
Proof. unfold wrap_int, max_int. intros H. rewrite Z.mod_small; lia. Qed.

(** X9. The three derived settings of [Init] for a configuration with
    [threshMult] and [mBar] not negative and a product that fits an
    [int]: the split threshold is the product, the join threshold is its
    half rounded down and so never above it, and there is one sample more
    than [mBar]. Computing them again changes nothing. *)
Theorem derive_thresholds (c : config) :
  0 <= threshMult c -> 0 <= mBar c < max_int ->
  threshMult c * mBar c <= max_int ->
  let d := derive c in
  splitThreshold d = threshMult c * mBar c /\
  0 <= joinThreshold d <= splitThreshold d /\
  splitThreshold d - 2 * joinThreshold d = splitThreshold d mod 2 /\
  numSamples d = mBar c + 1 /\
  threshMult d = threshMult c /\ bitQuantum d = bitQuantum c /\ mBar d = mBar c /\
  derive d = d.
Proof.
  intros Ht Hm Hprod d. subst d. unfold derive. cbn.
  assert (0 <= threshMult c * mBar c) by nia.
  rewrite !wrap_int_small by (unfold max_int in *; lia).
  rewrite Z.quot_div_nonneg by lia.
  repeat split; try done; try div8.
Qed.

Lemma derive_thresholds_witness :
  splitThreshold example_config = 6 /\ joinThreshold example_config = 3 /\
  numSamples example_config = 3.
Proof.
  destruct (derive_thresholds (mkConfig 3 2 2 0 0 0)) as (Hs & _ & _ & Hn & _).
  - simpl. lia.
  - unfold max_int. simpl. lia.
  - unfold max_int. simpl. lia.
  - split; [exact Hs|]. split; [reflexivity | exact Hn].
Defined.

(** ** An error of insert *)

Lemma insert_error_last (P_SKS : Z) (fuel : nat) (t : prefixTree) (n : nodeData)
    (z : Zp) (marray : list Zp) (bs : Bitstring) (depth : Z) (st st' : collection)
    (path : list visit) (e : error) :
  insert P_SKS fuel t n z marray bs depth st = Some (Ok (path, Some e), st') ->
  exists rest v n1,
    path = rest ++ [v] /\
    IsLeaf (before v) = true /\
    Z.of_nat (length (elements (before v))) <= SplitThreshold t /\
    ReadZZarray P_SKS (elements (before v)) = inl e /\
    updateSvalues P_SKS t (before v) z marray = Ok n1 /\
    after v = incr_numElements n1.
Proof.
  revert n depth st st' path.
  induction fuel as [|fuel IH]; intros n depth st st' path H; [done|].
  cbn [insert] in H.
  apply bind_Ok_inv in H as (n1 & s1 & Hu & H).
  apply lift_Ok_inv in Hu as [Hu ->].
  pose proof (updateSvalues_fields _ _ _ _ _ _ Hu) as (K1 & N1 & E1 & C1).
  assert (Hleaf : IsLeaf (incr_numElements n1) = IsLeaf n).
  { unfold IsLeaf. cbn [incr_numElements childKeys]. by rewrite C1. }
  rewrite Hleaf in H.
  assert (Hdescend : forall n3 s,
            (child ← NextChild t n3 bs depth;
             '(path, err) ← insert P_SKS fuel t child z marray bs (depth + 1);
             mret (mkVisit n n3 :: path, err)) s = Some (Ok (path, Some e), st') ->
            exists rest v n1,
              path = rest ++ [v] /\
              IsLeaf (before v) = true /\
              Z.of_nat (length (elements (before v))) <= SplitThreshold t /\
              ReadZZarray P_SKS (elements (before v)) = inl e /\
              updateSvalues P_SKS t (before v) z marray = Ok n1 /\
              after v = incr_numElements n1).
  { intros n3 s Hd. apply bind_Ok_inv in Hd as (c & s2 & _ & Hd).
    apply bind_Ok_inv in Hd as ([path' err'] & s3 & Hi & Hd).
    injection Hd as <- -> <-.
    apply IH in Hi as (rest & v & n1' & -> & Hrest).
    exists (mkVisit n n3 :: rest), v, n1'. split; [done|]. exact Hrest. }
  destruct (IsLeaf n) eqn:El.
  - cbn [incr_numElements elements] in H. rewrite E1 in H.
    destruct (Z.gtb_spec (Z.of_nat (length (elements n))) (SplitThreshold t))
      as [Hgt|Hle].
    + apply bind_Ok_inv in H as (n3 & s3 & _ & H). by eapply Hdescend.
    + unfold append_element in H. cbn [incr_numElements elements] in H.
      rewrite E1 in H.
      destruct (ReadZZarray P_SKS (elements n)) as [e'|l] eqn:Er.
      * injection H as <- <- <-.
        exists [], (mkVisit n (incr_numElements n1)), n1. done.
      * done.
  - by eapply Hdescend.
Qed.

(** X21. [insert] returns an error only from the leaf at the end of its
    path, when the elements of that leaf do not decode, and by then the
    work is done on every node of the path: each count is one higher, and
    the leaf itself is what [updateSvalues] made of it with the count
    incremented and the elements as they were. An error undoes nothing. *)
Theorem insert_error_undoes_nothing (P_SKS : Z) (fuel : nat) (t : prefixTree)
    (n : nodeData) (z : Zp) (marray : list Zp) (bs : Bitstring) (depth : Z)
    (st st' : collection) (path : list visit) (e : error) :
  insert P_SKS fuel t n z marray bs depth st = Some (Ok (path, Some e), st') ->
  Forall (fun v => numElements (after v) = wrap_int (numElements (before v) + 1))
    path /\
  exists rest v n1,
    path = rest ++ [v] /\
    IsLeaf (before v) = true /\
    ReadZZarray P_SKS (elements (before v)) = inl e /\
    updateSvalues P_SKS t (before v) z marray = Ok n1 /\
    after v = incr_numElements n1 /\
    elements (after v) = elements (before v).
Proof.
  intros H. split.
  - apply insert_increments in H as [_ H].
    eapply Forall_impl; [exact H|]. by intros v [? _].
  - apply insert_error_last in H as (rest & v & n1 & -> & Hl & _ & Hr & Hu & Ha).
    exists rest, v, n1. repeat split; try done.
    rewrite Ha. cbn [incr_numElements elements].
    by apply updateSvalues_fields in Hu as (_ & _ & -> & _).
Qed.

Lemma insert_error_undoes_nothing_witness :
  exists n',
    insert 97 1 example_tree (set_elements example_root []) (mkZp 9 97)
      example_marray example_key 0 []
    = Some (Ok ([mkVisit (set_elements example_root []) n'], Some ErrEOF), [])
    /\ numElements n' = 1 /\ elements n' = [] /\
    svalues n' <> svalues example_root.
Proof.
  destruct (insert 97 1 example_tree (set_elements example_root []) (mkZp 9 97)
              example_marray example_key 0 [])
    as [[[[path [e|]]|msg] st']|] eqn:E; try (vm_compute in E; discriminate).
  destruct (insert_error_undoes_nothing 97 1 example_tree
              (set_elements example_root []) (mkZp 9 97) example_marray
              example_key 0 [] st' path e E)
    as (_ & rest & v & n1 & _ & _ & _ & _ & _ & _).
  vm_compute in E. injection E as <- <- <-.
  eexists. split; [reflexivity|]. split; [reflexivity|]. split; [reflexivity|].
  discriminate.
Defined.

(** ** numElements across a sequence of Inserts *)

Lemma insert_path_documents (P_SKS : Z) (fuel : nat) (t : prefixTree)
    (n : nodeData) (z : Zp) (marray : list Zp) (bs : Bitstring) (depth : Z)
    (st st' : collection) (path : list visit) (err : option error) :
  insert P_SKS fuel t n z marray bs depth st = Some (Ok (path, err), st') ->
  exists n' rest,
    path = mkVisit n n' :: rest /\ Forall (fun v => before v ∈ st) rest.
Proof.
  revert n depth st st' path err.
  induction fuel as [|fuel IH]; intros n depth st st' path err H; [done|].
  cbn [insert] in H.
  apply bind_Ok_inv in H as (n1 & s1 & Hu & H).
  apply lift_Ok_inv in Hu as [_ ->].
  assert (Hd : forall n3,
    (child ← NextChild t n3 bs depth;
     '(path, err) ← insert P_SKS fuel t child z marray bs (depth + 1);
     mret (mkVisit n n3 :: path, err)) st = Some (Ok (path, err), st') ->
    exists n' rest,
      path = mkVisit n n' :: rest /\ Forall (fun v => before v ∈ st) rest).
  { intros n3 Hrun.
    apply bind_Ok_inv in Hrun as (child & s2 & Hn & Hrun).
    apply NextChild_member in Hn as [Hin ->].
    apply bind_Ok_inv in Hrun as ([p e] & s3 & Hins & Hrun).
    injection Hrun as <- <- <-.
    apply IH in Hins as (c' & rest & -> & Hrest).
    exists n3, (mkVisit child c' :: rest). split; [done|]. by constructor. }
  destruct (IsLeaf _).
  - destruct (_ >? _).
    + apply bind_Ok_inv in H as (n3 & s2 & Hs & H).
      pose proof Hs as Hro.
      apply read_only_split_with in Hro; [|intros; apply read_only_insert].
      subst s2. by apply Hd in H.
    + destruct (append_element _ _ _) as [n3 e3]. injection H as <- <- <-.
      exists n3, []. split; [done|]. constructor.
  - by apply Hd in H.
Qed.

(** Every node an [Insert] visits is a document as the collection has it,
    and the visit leaves the object with the count one higher. *)
Lemma Insert_path_counts (P_SKS : Z) (t : prefixTree) (z : Zp)
    (st st' : collection) (path : list visit) (err : option error) :
  Insert P_SKS t z st = Some (Ok (path, err), st') ->
  Forall (fun v => before v ∈ st /\
                   numElements (after v) = wrap_int (numElements (before v) + 1))
    path.
Proof.
  unfold Insert. intros H.
  apply bind_Ok_inv in H as (bs & s1 & Hk & H).
  apply lift_Ok_inv in Hk as [_ ->].
  apply bind_Ok_inv in H as (r & s2 & Hr & H).
  apply find_one_inv in Hr as [-> Hr].
  destruct r as [e|root].
  - injection H as <- _ _. constructor.
  - destruct Hr as [_ Hin].
    apply bind_Ok_inv in H as (marray & s3 & Hm & H).
    apply lift_Ok_inv in Hm as [_ ->].
    pose proof (insert_increments _ _ _ _ _ _ _ _ _ _ _ _ H) as [_ Hcount].
    apply insert_path_documents in H as (n' & rest & -> & Hdocs).
    apply Forall_cons in Hcount as [(Hc & _) Hcount].
    constructor; [done|].
    apply Forall_forall. intros v Hv. split.
    + by apply (proj1 (Forall_forall _ _) Hdocs).
    + by apply (proj1 (Forall_forall _ _) Hcount).
Qed.

Lemma Insert_sequence (P_SKS : Z) (t : prefixTree) (zs : list Zp)
    (acc out : list (list visit * option error)) (st st' : collection) :
  for_each zs
    (fun (z : Zp) (acc : list (list visit * option error)) =>
       (r ← Insert P_SKS t z; mret (acc ++ [r])) : M collection _)
    acc st = Some (Ok out, st') ->
  st' = st /\
  exists rs,
    out = acc ++ rs /\ length rs = length zs /\
    Forall (fun r =>
              Forall (fun v => before v ∈ st /\
                               numElements (after v)
                               = wrap_int (numElements (before v) + 1)) r.1) rs.
Proof.
  revert acc st.
  induction zs as [|z zs IH]; intros acc st H.
  - injection H as <- <-. split; [done|]. exists []. by rewrite app_nil_r.
  - cbn [for_each] in H.
    apply bind_Ok_inv in H as (acc' & s1 & Hbody & H).
    apply bind_Ok_inv in Hbody as ([path err] & s2 & Hins & Hbody).
    injection Hbody as <- <-.
    pose proof (read_only_Insert _ _ _ _ _ _ Hins) as ->.
    apply Insert_path_counts in Hins.
    apply IH in H as (-> & rs & -> & Hlen & Hall).
    split; [done|]. exists ((path, err) :: rs).
    split; [by rewrite <- app_assoc|]. split; [simpl; lia|]. by constructor.
Qed.

(** C7, the statement as it stands fails. Two [Insert]s that return
    without an error both visit the root, each finds the count 0 there and
    leaves its node object with the count 1, and the root in the collection
    has the count 0 after both: no node holds the number 2 of insertions
    that visited it. *)
Lemma numElements_not_insert_count :
  exists v1 v2 st1 st2,
    Insert 97 example_tree (mkZp 5 97) [example_root]
    = Some (Ok ([v1], None), st1) /\
    Insert 97 example_tree (mkZp 9 97) st1 = Some (Ok ([v2], None), st2) /\
    key (before v1) = [] /\ key (before v2) = [] /\
    numElements (before v1) = 0 /\ numElements (after v1) = 1 /\
    numElements (before v2) = 0 /\ numElements (after v2) = 1 /\
    exists root,
      Root example_tree st2 = Some (Ok (inr root), st2) /\ numElements root = 0.
Proof.
  eexists _, _, _, _. split; [vm_compute; reflexivity|].
  split; [vm_compute; reflexivity|].
  repeat (split; [reflexivity|]).
  eexists. split; [vm_compute; reflexivity|]. reflexivity.
Qed.

(** C7, as the code has it. In a sequence of [Insert]s that return, every
    node a call visits is a document as the collection holds it, and the
    call leaves its node object with the count of that document plus one
    (as an [int]), with a split on the way or an error; [split] itself
    leaves the count alone. The collection after the sequence is the
    collection before it, so the count a document holds is never lowered
    or reset, and it never counts the insertions that visited the node. *)
Theorem numElements_one_above_stored (P_SKS : Z) (t : prefixTree) (zs : list Zp)
    (st st' : collection) (out : list (list visit * option error)) :
  for_each zs
    (fun (z : Zp) (acc : list (list visit * option error)) =>
       (r ← Insert P_SKS t z; mret (acc ++ [r])) : M collection _)
    [] st = Some (Ok out, st') ->
  st' = st /\ length out = length zs /\
  Forall (fun r =>
            Forall (fun v => before v ∈ st /\
                             numElements (after v)
                             = wrap_int (numElements (before v) + 1)) r.1) out /\
  (forall fuel m m' d s s',
     split P_SKS fuel t m d s = Some (Ok m', s') -> numElements m' = numElements m).
Proof.
  intros H. apply Insert_sequence in H as (-> & rs & -> & Hlen & Hall).
  split; [done|]. split; [done|]. split; [done|].
  intros fuel m m' d s s' Hs. apply split_leaves_node_a_leaf_aux in Hs. by subst.
Qed.

Lemma numElements_one_above_stored_witness :
  exists n1 n2,
    for_each [mkZp 5 97; mkZp 9 97]
      (fun (z : Zp) (acc : list (list visit * option error)) =>
         (r ← Insert 97 example_tree z; mret (acc ++ [r])) : M collection _)
      [] [example_root]
    = Some (Ok [([mkVisit example_root n1], None);
                ([mkVisit example_root n2], None)], [example_root]) /\
    numElements example_root = 0 /\ numElements n1 = 1 /\ numElements n2 = 1.
Proof.
  destruct (for_each [mkZp 5 97; mkZp 9 97]
              (fun (z : Zp) (acc : list (list visit * option error)) =>
                 (r ← Insert 97 example_tree z; mret (acc ++ [r])) : M collection _)
              [] [example_root])
    as [[[out|msg] st']|] eqn:E; try (vm_compute in E; discriminate).
  destruct (numElements_one_above_stored 97 example_tree [mkZp 5 97; mkZp 9 97]
              [example_root] st' out E) as (-> & _ & Hall & _).
  vm_compute in E. injection E as <-.
  apply Forall_cons in Hall as [H1 Hall]. apply Forall_cons in Hall as [H2 _].
  apply Forall_cons in H1 as [[_ H1] _]. apply Forall_cons in H2 as [[_ H2] _].
  eexists _, _. split; [reflexivity|]. split; [reflexivity|].
  split; [exact H1 | exact H2].
Defined.
